(** * ppc_simd.h: PowerPC AltiVec / VSX support functions

    A shallow embedding of Crypto++'s [ppc_simd.h].  The header is a thin
    layer over the AltiVec intrinsics; every function in it is a few
    intrinsic calls selected by preprocessor conditionals.  The embedding
    therefore has three layers:

    - the build configuration (the macros the header tests),
    - the AltiVec/VSX intrinsics the header calls, as functions on the
      16-byte register image and on a byte-addressed memory,
    - the header's own functions, transcribed conditional by conditional.

    A vector value is modelled by its 16 bytes in _element order_: byte
    [i] of a vector is the byte that a vector load takes from address
    [p + i] and that a vector store puts back there.  This is the order in
    which C initialisers such as [{15,14,...,0}] list the bytes, and the
    order in which [vec_perm], [vec_lvsl], [vec_lvsr] and [vec_ste] number
    them under the compilers' default element-order rules, on big-endian
    and little-endian targets alike.  Two things depend on the byte order
    of the host: how the bytes of a lane make up its integer value, and
    [vec_sld], which always shifts the big-endian register image. *)

From Stdlib Require Import ZArith List Bool Lia.
From coqutil Require Import Byte Word.LittleEndianList Z.bitblast.
Import ListNotations.
Local Open Scope Z_scope.

(* ================================================================== *)
(** * Build configuration *)
(* ================================================================== *)

(** The compiler tests of the header: [__xlc__ || __xlC__ || __clang__]
    is tried first, then [__GNUC__]; anything else is unrecognised. *)
Inductive compiler_family : Type :=
| XLC_or_Clang
| GNUC
| UnknownCompiler.

(** [_ARCH_PWR7], [_ARCH_PWR8] and [CRYPTOPP_BIG_ENDIAN].  The whole
    header is under [__ALTIVEC__], which is taken for granted.
    [CRYPTOPP_DOXYGEN_PROCESSING] is set only while the documentation is
    generated, when nothing is compiled or run: it is undefined in every
    build configuration and is left out. *)
Record config : Type := Config {
  arch_pwr7  : bool;
  arch_pwr8  : bool;
  big_endian : bool;
  family     : compiler_family
}.

Definition xlc_or_clang (cfg : config) : bool :=
  match family cfg with XLC_or_Clang => true | _ => false end.

(* ================================================================== *)
(** * The vector register *)
(* ================================================================== *)

(** [uint8x16_p], [uint16x8_p], [uint32x4_p] and [uint64x2_p] are four
    views of one 128-bit register; a cast between them changes no bit.
    One record type stands for all four. *)
Record uint8x16_p : Type := V16 {
  e0  : byte; e1  : byte; e2  : byte; e3  : byte;
  e4  : byte; e5  : byte; e6  : byte; e7  : byte;
  e8  : byte; e9  : byte; e10 : byte; e11 : byte;
  e12 : byte; e13 : byte; e14 : byte; e15 : byte
}.

Definition uint16x8_p : Type := uint8x16_p.
Definition uint32x4_p : Type := uint8x16_p.
Definition uint64x2_p : Type := uint8x16_p.

(** Byte [i] of a vector (zero outside [0..15]). *)
Definition get (v : uint8x16_p) (i : Z) : byte :=
  match i with
  | 0 => e0 v   | 1 => e1 v   | 2 => e2 v   | 3 => e3 v
  | 4 => e4 v   | 5 => e5 v   | 6 => e6 v   | 7 => e7 v
  | 8 => e8 v   | 9 => e9 v   | 10 => e10 v | 11 => e11 v
  | 12 => e12 v | 13 => e13 v | 14 => e14 v | 15 => e15 v
  | _ => Byte.x00
  end.

(** The vector whose byte [i] is [f i]. *)
Definition build (f : Z -> byte) : uint8x16_p :=
  V16 (f 0) (f 1) (f 2) (f 3) (f 4) (f 5) (f 6) (f 7)
      (f 8) (f 9) (f 10) (f 11) (f 12) (f 13) (f 14) (f 15).

Definition to_list (v : uint8x16_p) : list byte :=
  [e0 v; e1 v; e2 v; e3 v; e4 v; e5 v; e6 v; e7 v;
   e8 v; e9 v; e10 v; e11 v; e12 v; e13 v; e14 v; e15 v].

Definition of_list (l : list byte) : uint8x16_p :=
  build (fun i => nth (Z.to_nat i) l Byte.x00).

(** A vector literal [{n0, n1, ..., n15}] of [unsigned char]. *)
Definition lit8 (l : list Z) : uint8x16_p :=
  of_list (map byte.of_Z l).

(** [const T zero = {0}]: the first element is 0 and the rest are
    zero-initialised. *)
Definition zero_vec : uint8x16_p := build (fun _ => Byte.x00).

(* ================================================================== *)
(** * Lanes *)
(* ================================================================== *)

(** The integer held by a lane, from the lane's bytes in element order.
    On a big-endian host the first byte is the most significant, on a
    little-endian host the least. *)
Definition lane_val (cfg : config) (bs : list byte) : Z :=
  if big_endian cfg then le_combine (rev bs) else le_combine bs.

(** The [n] bytes of a lane holding [z], in element order. *)
Definition lane_bytes (cfg : config) (n : nat) (z : Z) : list byte :=
  if big_endian cfg then rev (le_split n z) else le_split n z.

(** The bytes [w*k .. w*k + w - 1] of a vector: lane [k] of width [w]. *)
Definition lane_slice (w : nat) (v : uint8x16_p) (k : nat) : list byte :=
  firstn w (skipn (w * k) (to_list v)).

(** The [(uint32x4_p)] view: four 32-bit lanes. *)
Definition lanes32 (cfg : config) (v : uint8x16_p) : list Z :=
  map (fun k => lane_val cfg (lane_slice 4 v k)) [0; 1; 2; 3]%nat.

(** The [(uint64x2_p)] view: two 64-bit lanes. *)
Definition lanes64 (cfg : config) (v : uint8x16_p) : list Z :=
  map (fun k => lane_val cfg (lane_slice 8 v k)) [0; 1]%nat.

(** A vector from its lanes of [w] bytes each. *)
Definition of_lanes (cfg : config) (w : nat) (ls : list Z) : uint8x16_p :=
  of_list (concat (map (lane_bytes cfg w) ls)).

(** Lane-wise combination of two lane lists. *)
Fixpoint zip_with (f : Z -> Z -> Z) (xs ys : list Z) : list Z :=
  match xs, ys with
  | x :: xs', y :: ys' => f x y :: zip_with f xs' ys'
  | _, _ => []
  end.

(* ================================================================== *)
(** * Memory *)
(* ================================================================== *)

(** Byte-addressed memory.  Pointers are addresses in [Z]; an [int]
    offset is added to them as an integer (pointer arithmetic on
    [byte*]), without wrap-around. *)
Definition memory : Type := Z -> byte.

(** Modelled from the spec: [IsAlignedOn] is declared in [misc.h], which
    is not part of the sources at hand.  It tells whether an address is a
    multiple of the alignment ("the effective address is 16-byte
    aligned"); only its use at alignment 16 is needed. *)
Definition IsAlignedOn (p : Z) (alignment : Z) : bool :=
  Z.land p (alignment - 1) =? 0.

(* ================================================================== *)
(** * AltiVec and VSX intrinsics *)
(* ================================================================== *)

(** One of the 32 bytes of the pair [a], [b]. *)
Definition sel (a b : uint8x16_p) (k : Z) : byte :=
  if k <? 16 then get a k else get b (k - 16).

(** [vec_perm(a, b, m)]: byte [i] of the result is byte [m[i] & 0x1F] of
    the concatenation of [a] and [b]. *)
Definition vec_perm (a b m : uint8x16_p) : uint8x16_p :=
  build (fun i => sel a b (Z.land (byte.unsigned (get m i)) 31)).

(** [vec_ld(off, p)] ([lvx]): the low four bits of the effective address
    are ignored; the aligned 16-byte block is loaded. *)
Definition vec_ld (m : memory) (off p : Z) : uint8x16_p :=
  let ea := Z.land (p + off) (-16) in
  build (fun i => m (ea + i)).

(** [vec_lvsl(off, p)]: with [sh] the low four bits of the effective
    address, the bytes [sh, sh+1, ..., sh+15]. *)
Definition vec_lvsl (off p : Z) : uint8x16_p :=
  let sh := Z.land (p + off) 15 in
  build (fun i => byte.of_Z (sh + i)).

(** [vec_lvsr(off, p)]: the bytes [16-sh, 17-sh, ..., 31-sh]. *)
Definition vec_lvsr (off p : Z) : uint8x16_p :=
  let sh := Z.land (p + off) 15 in
  build (fun i => byte.of_Z (16 - sh + i)).

(** [vec_xl(off, p)] and [vec_vsx_ld(off, p)]: the 16 bytes at the
    effective address, whatever its alignment. *)
Definition vec_xl (m : memory) (off p : Z) : uint8x16_p :=
  build (fun i => m (p + off + i)).

Definition vec_vsx_ld (m : memory) (off p : Z) : uint8x16_p :=
  vec_xl m off p.

(** The register image: byte [k] of the register, most significant
    first.  On a little-endian host it is the element order reversed. *)
Definition reg_image (cfg : config) (v : uint8x16_p) : uint8x16_p :=
  if big_endian cfg then v else build (fun i => get v (15 - i)).

(** [vec_xl_be(off, p)]: a load whose result has big-endian element
    order; on a big-endian host it is [vec_xl]. *)
Definition vec_xl_be (cfg : config) (m : memory) (off p : Z) : uint8x16_p :=
  reg_image cfg (vec_xl m off p).

(** Writing [n] bytes of the register at the [n]-aligned address [ea]:
    the bytes written are those that sit in the register at the offset
    of [ea] within its 16-byte block. *)
Definition store_elem (n : Z) (v : uint8x16_p) (ea : Z) (m : memory) : memory :=
  fun x =>
    if (ea <=? x) && (x <? ea + n)
    then get v (Z.land ea 15 + (x - ea))
    else m x.

(** [vec_st(v, off, p)] ([stvx]): stores to the aligned 16-byte block. *)
Definition vec_st (v : uint8x16_p) (off p : Z) (m : memory) : memory :=
  store_elem 16 v (Z.land (p + off) (-16)) m.

(** [vec_ste(v, off, p)] with [v] an [unsigned char], [unsigned short]
    or [unsigned int] vector ([stvebx], [stvehx], [stvewx]): the
    effective address is rounded down to the element size and the one
    element of [v] that lies there in the register is stored. *)
Definition vec_ste_u8 (v : uint8x16_p) (off p : Z) (m : memory) : memory :=
  store_elem 1 v (p + off) m.

Definition vec_ste_u16 (v : uint16x8_p) (off p : Z) (m : memory) : memory :=
  store_elem 2 v (Z.land (p + off) (-2)) m.

Definition vec_ste_u32 (v : uint32x4_p) (off p : Z) (m : memory) : memory :=
  store_elem 4 v (Z.land (p + off) (-4)) m.

(** [vec_xst(v, off, p)] and [vec_vsx_st(v, off, p)]: the 16 bytes of
    [v] go to the effective address, whatever its alignment. *)
Definition vec_xst (v : uint8x16_p) (off p : Z) (m : memory) : memory :=
  fun x =>
    if (p + off <=? x) && (x <? p + off + 16)
    then get v (x - (p + off))
    else m x.

Definition vec_vsx_st (v : uint8x16_p) (off p : Z) (m : memory) : memory :=
  vec_xst v off p m.

(** [vec_xst_be(v, off, p)]: the store that undoes [vec_xl_be]. *)
Definition vec_xst_be (cfg : config) (v : uint8x16_p) (off p : Z)
    (m : memory) : memory :=
  vec_xst (reg_image cfg v) off p m.

(** [vsldoi]: bytes [sh .. sh+15] of the 32-byte concatenation of two
    register images. *)
Definition vsldoi (a b : uint8x16_p) (sh : Z) : uint8x16_p :=
  build (fun i => sel a b (i + sh)).

(** [vec_sld(a, b, c)] for a literal [c] in [0..15]: the instruction
    works on the register image on every host, it is not adjusted to
    the element order. *)
Definition vec_sld (cfg : config) (a b : uint8x16_p) (c : Z) : uint8x16_p :=
  reg_image cfg (vsldoi (reg_image cfg a) (reg_image cfg b) c).

(** The third argument of [vec_sld] must be a literal that fits the
    four-bit shift field of the instruction. *)
Definition vec_sld_literal (c : Z) : bool :=
  (0 <=? c) && (c <=? 15).

(** A call [vec_sld(a, b, c)] whose literal is not known to fit: it has
    a value only if the literal is in [0..15]; the intrinsic is not
    defined for another count. *)
Definition vec_sld_checked (cfg : config) (a b : uint8x16_p) (c : Z)
    : option uint8x16_p :=
  if vec_sld_literal c then Some (vec_sld cfg a b c) else None.

(** Sequencing of calls that may have no value. *)
Definition and_then {A B : Type} (o : option A) (f : A -> option B)
    : option B :=
  match o with
  | Some a => f a
  | None => None
  end.

(** [vec_add] on [uint32x4_p]: lane-wise, modulo [2^32]. *)
Definition vec_add_u32 (cfg : config) (a b : uint32x4_p) : uint32x4_p :=
  of_lanes cfg 4
    (zip_with (fun x y => (x + y) mod 2 ^ 32) (lanes32 cfg a) (lanes32 cfg b)).

(** [vec_addc] on [uint32x4_p]: the carry out of each 32-bit lane sum. *)
Definition vec_addc (cfg : config) (a b : uint32x4_p) : uint32x4_p :=
  of_lanes cfg 4
    (zip_with (fun x y => (x + y) / 2 ^ 32) (lanes32 cfg a) (lanes32 cfg b)).

(** [vec_add] on [uint64x2_p] ([vaddudm], POWER8): lane-wise, modulo
    [2^64]. *)
Definition vec_add_u64 (cfg : config) (a b : uint64x2_p) : uint64x2_p :=
  of_lanes cfg 8
    (zip_with (fun x y => (x + y) mod 2 ^ 64) (lanes64 cfg a) (lanes64 cfg b)).

(** [vec_all_eq] on [uint32x4_p]: the [int] 1 when every lane of [a]
    equals the same lane of [b], else 0. *)
Definition vec_all_eq (cfg : config) (a b : uint32x4_p) : Z :=
  if forallb (fun xy => fst xy =? snd xy)
             (combine (lanes32 cfg a) (lanes32 cfg b))
  then 1 else 0.

(* ================================================================== *)
(** * The header's functions *)
(* ================================================================== *)

(** Statements that write memory are memory transformers; [s1 ;; s2]
    runs [s1] and then [s2]. *)
Definition stmt : Type := memory -> memory.

Definition seq_stmt (s1 s2 : stmt) : stmt := fun m => s2 (s1 m).

Declare Scope stmt_scope.
Delimit Scope stmt_scope with stmt.
Notation "s1 ;; s2" := (seq_stmt s1 s2)
  (at level 61, right associativity) : stmt_scope.

(** [Reverse(src)]. *)
Definition Reverse (src : uint8x16_p) : uint8x16_p :=
  let mask := lit8 [15;14;13;12; 11;10;9;8; 7;6;5;4; 3;2;1;0] in
  vec_perm src src mask.

(** ** Loads *)

(** [VectorLoad_ALTIVEC(const byte src[16])]. *)
Definition VectorLoad_ALTIVEC (m : memory) (src : Z) : uint32x4_p :=
  if IsAlignedOn src 16 then
    vec_ld m 0 src
  else
    let perm := vec_lvsl 0 src in
    let low := vec_ld m 0 src in
    let high := vec_ld m 15 src in
    vec_perm low high perm.

(** [VectorLoad_ALTIVEC(int off, const byte src[16])]. *)
Definition VectorLoad_ALTIVEC_off (m : memory) (off src : Z) : uint32x4_p :=
  if IsAlignedOn src 16 then
    vec_ld m off src
  else
    let perm := vec_lvsl off src in
    let low := vec_ld m off src in
    let high := vec_ld m 15 src in
    vec_perm low high perm.

(** [VectorLoad(const byte src[16])]. *)
Definition VectorLoad (cfg : config) (m : memory) (src : Z) : uint32x4_p :=
  if arch_pwr7 cfg then
    if xlc_or_clang cfg then vec_xl m 0 src else vec_vsx_ld m 0 src
  else
    VectorLoad_ALTIVEC m src.

(** [VectorLoad(int off, const byte src[16])]. *)
Definition VectorLoad_off (cfg : config) (m : memory) (off src : Z)
    : uint32x4_p :=
  if arch_pwr7 cfg then
    if xlc_or_clang cfg then vec_xl m off src else vec_vsx_ld m off src
  else
    VectorLoad_ALTIVEC_off m off src.

(** [VectorLoadBE(const byte src[16])]. *)
Definition VectorLoadBE (cfg : config) (m : memory) (src : Z) : uint32x4_p :=
  if arch_pwr7 cfg then
    if xlc_or_clang cfg then vec_xl_be cfg m 0 src
    else if big_endian cfg then vec_vsx_ld m 0 src
    else Reverse (vec_vsx_ld m 0 src)
  else
    if big_endian cfg then VectorLoad cfg m src
    else Reverse (VectorLoad cfg m src).

(** [VectorLoadBE(int off, const byte src[16])]. *)
Definition VectorLoadBE_off (cfg : config) (m : memory) (off src : Z)
    : uint32x4_p :=
  if arch_pwr7 cfg then
    if xlc_or_clang cfg then vec_xl_be cfg m off src
    else if big_endian cfg then vec_vsx_ld m off src
    else Reverse (vec_vsx_ld m off src)
  else
    if big_endian cfg then VectorLoad_off cfg m off src
    else Reverse (VectorLoad_off cfg m off src).

(** ** Stores *)

(** [VectorStore_ALTIVEC(const T data, byte dest[16])]. *)
Definition VectorStore_ALTIVEC (data : uint8x16_p) (dest : Z) : stmt :=
  if IsAlignedOn dest 16 then
    vec_st data 0 dest
  else
    let perm := vec_perm data data (vec_lvsr 0 dest) in
    (vec_ste_u8  perm  0 dest ;;
     vec_ste_u16 perm  1 dest ;;
     vec_ste_u32 perm  3 dest ;;
     vec_ste_u32 perm  4 dest ;;
     vec_ste_u32 perm  8 dest ;;
     vec_ste_u32 perm 12 dest ;;
     vec_ste_u16 perm 14 dest ;;
     vec_ste_u8  perm 15 dest)%stmt.

(** [VectorStore_ALTIVEC(const T data, int off, byte dest[16])]. *)
Definition VectorStore_ALTIVEC_off (data : uint8x16_p) (off dest : Z) : stmt :=
  if IsAlignedOn dest 16 then
    vec_st data off dest
  else
    let perm := vec_perm data data (vec_lvsr off dest) in
    (vec_ste_u8  perm  0 dest ;;
     vec_ste_u16 perm  1 dest ;;
     vec_ste_u32 perm  3 dest ;;
     vec_ste_u32 perm  4 dest ;;
     vec_ste_u32 perm  8 dest ;;
     vec_ste_u32 perm 12 dest ;;
     vec_ste_u16 perm 14 dest ;;
     vec_ste_u8  perm 15 dest)%stmt.

(** [VectorStore(const T data, byte dest[16])]. *)
Definition VectorStore (cfg : config) (data : uint8x16_p) (dest : Z) : stmt :=
  if arch_pwr7 cfg then
    if xlc_or_clang cfg then vec_xst data 0 dest else vec_vsx_st data 0 dest
  else
    VectorStore_ALTIVEC_off data 0 dest.

(** [VectorStore(const T data, int off, byte dest[16])]. *)
Definition VectorStore_off (cfg : config) (data : uint8x16_p) (off dest : Z)
    : stmt :=
  if arch_pwr7 cfg then
    if xlc_or_clang cfg then vec_xst data off dest
    else vec_vsx_st data off dest
  else
    VectorStore_ALTIVEC_off data off dest.

(** [VectorStoreBE(const T src, byte dest[16])]. *)
Definition VectorStoreBE (cfg : config) (src : uint8x16_p) (dest : Z) : stmt :=
  if arch_pwr7 cfg then
    if xlc_or_clang cfg then vec_xst_be cfg src 0 dest
    else if big_endian cfg then vec_vsx_st src 0 dest
    else vec_vsx_st (Reverse src) 0 dest
  else
    if big_endian cfg then VectorStore cfg src dest
    else VectorStore cfg (Reverse src) dest.

(** [VectorStoreBE(const T src, int off, byte dest[16])]. *)
Definition VectorStoreBE_off (cfg : config) (src : uint8x16_p) (off dest : Z)
    : stmt :=
  if arch_pwr7 cfg then
    if xlc_or_clang cfg then vec_xst_be cfg src off dest
    else if big_endian cfg then vec_vsx_st src off dest
    else vec_vsx_st (Reverse src) off dest
  else
    if big_endian cfg then VectorStore_off cfg src off dest
    else VectorStore_off cfg (Reverse src) off dest.

(** ** Permutation, addition, shifts and rotations *)

(** [VectorPermute(vec, mask)] and [VectorPermute(vec1, vec2, mask)]. *)
Definition VectorPermute (vec mask : uint8x16_p) : uint8x16_p :=
  vec_perm vec vec mask.

Definition VectorPermute2 (vec1 vec2 mask : uint8x16_p) : uint8x16_p :=
  vec_perm vec1 vec2 mask.

(** A [uint32x4_p] literal [{n0, n1, n2, n3}]. *)
Definition lit32 (cfg : config) (l : list Z) : uint32x4_p :=
  of_lanes cfg 4 l.

(** [VectorAdd64(vec1, vec2)]. *)
Definition VectorAdd64 (cfg : config) (vec1 vec2 : uint32x4_p) : uint32x4_p :=
  if arch_pwr8 cfg then
    vec_add_u64 cfg vec1 vec2
  else
    let cmask := lit8 [4;5;6;7; 16;16;16;16; 12;13;14;15; 16;16;16;16] in
    let zero := lit32 cfg [0; 0; 0; 0] in
    let cy := vec_addc cfg vec1 vec2 in
    let cy := vec_perm cy zero cmask in
    vec_add_u32 cfg (vec_add_u32 cfg vec1 vec2) cy.

(** [VectorShiftLeftOctet<C>(vec)]; [C] is an [unsigned int]. *)
Definition VectorShiftLeftOctet (cfg : config) (C : Z) (vec : uint8x16_p)
    : uint8x16_p :=
  let zero := zero_vec in
  if 16 <=? C then zero
  else if C =? 0 then vec
  else if big_endian cfg then vec_sld cfg vec zero C
  else vec_sld cfg zero vec (16 - C).

(** [VectorShiftRightOctet<C>(vec)]. *)
Definition VectorShiftRightOctet (cfg : config) (C : Z) (vec : uint8x16_p)
    : uint8x16_p :=
  let zero := zero_vec in
  if 16 <=? C then zero
  else if C =? 0 then vec
  else if big_endian cfg then vec_sld cfg zero vec (16 - C)
  else vec_sld cfg vec zero C.

(** [VectorRotateLeftOctet<C>(vec)], with [enum { R = C&0xf }].  The
    count handed to [vec_sld] is [R] or [16-R]; the latter is 16 when
    [R] is 0, so the call is a checked one. *)
Definition VectorRotateLeftOctet (cfg : config) (C : Z) (vec : uint8x16_p)
    : option uint8x16_p :=
  let R := Z.land C 15 in
  if big_endian cfg then vec_sld_checked cfg vec vec R
  else vec_sld_checked cfg vec vec (16 - R).

(** [VectorRotateRightOctet<C>(vec)]. *)
Definition VectorRotateRightOctet (cfg : config) (C : Z) (vec : uint8x16_p)
    : option uint8x16_p :=
  let R := Z.land C 15 in
  if big_endian cfg then vec_sld_checked cfg vec vec (16 - R)
  else vec_sld_checked cfg vec vec R.

(** ** Comparison *)

(** [VectorEqual(vec1, vec2)]: [1 == vec_all_eq(...)]. *)
Definition VectorEqual (cfg : config) (vec1 vec2 : uint8x16_p) : bool :=
  1 =? vec_all_eq cfg vec1 vec2.

(** [VectorNotEqual(vec1, vec2)]: [0 == vec_all_eq(...)]. *)
Definition VectorNotEqual (cfg : config) (vec1 vec2 : uint8x16_p) : bool :=
  0 =? vec_all_eq cfg vec1 vec2.

(* ================================================================== *)
(** * The rest of the header *)
(* ================================================================== *)

(** ** More intrinsics *)

(** [vec_and], [vec_or], [vec_xor]: bit by bit, hence byte by byte,
    whatever the lane type. *)
Definition bytewise (f : Z -> Z -> Z) (a b : uint8x16_p) : uint8x16_p :=
  build (fun i =>
           byte.of_Z (f (byte.unsigned (get a i)) (byte.unsigned (get b i)))).

Definition vec_and : uint8x16_p -> uint8x16_p -> uint8x16_p :=
  bytewise Z.land.

Definition vec_or : uint8x16_p -> uint8x16_p -> uint8x16_p :=
  bytewise Z.lor.

Definition vec_xor : uint8x16_p -> uint8x16_p -> uint8x16_p :=
  bytewise Z.lxor.

(** The vector type a template is instantiated at.  [uint64x2_p] is
    declared only under [_ARCH_PWR8]. *)
Inductive vector_type : Type :=
| T_uint8x16
| T_uint16x8
| T_uint32x4
| T_uint64x2.

(** Bytes per lane. *)
Definition lane_width (T : vector_type) : nat :=
  match T with
  | T_uint8x16 => 1
  | T_uint16x8 => 2
  | T_uint32x4 => 4
  | T_uint64x2 => 8
  end.

(** The lanes of a vector under the view [T], first lane first. *)
Definition lanes (cfg : config) (T : vector_type) (v : uint8x16_p) : list Z :=
  map (fun k => lane_val cfg (lane_slice (lane_width T) v k))
      (seq 0 (16 / lane_width T)).

(** [2^(8w)] for lanes of [w] bytes. *)
Definition lane_modulus (T : vector_type) : Z :=
  2 ^ (8 * Z.of_nat (lane_width T)).

(** [vec_add] and [vec_sub] at the type [T]: lane-wise, modulo the lane
    size. *)
Definition vec_add (cfg : config) (T : vector_type) (a b : uint8x16_p)
    : uint8x16_p :=
  of_lanes cfg (lane_width T)
    (zip_with (fun x y => (x + y) mod lane_modulus T)
              (lanes cfg T a) (lanes cfg T b)).

Definition vec_sub (cfg : config) (T : vector_type) (a b : uint8x16_p)
    : uint8x16_p :=
  of_lanes cfg (lane_width T)
    (zip_with (fun x y => (x - y) mod lane_modulus T)
              (lanes cfg T a) (lanes cfg T b)).

(** A 32-bit word rotated left by [n] bits, [0 <= n < 32]: the bits
    shifted out at the top come back at the bottom. *)
Definition rotl32 (x n : Z) : Z :=
  Z.lor (Z.shiftl x n mod 2 ^ 32) (Z.shiftr x (32 - n)).

(** [vec_rl] on [uint32x4_p] ([vrlw]): each lane of [a] is rotated left
    by the low five bits of the same lane of [m]. *)
Definition vec_rl (cfg : config) (a m : uint32x4_p) : uint32x4_p :=
  of_lanes cfg 4
    (zip_with (fun x s => rotl32 x (Z.land s 31))
              (lanes32 cfg a) (lanes32 cfg m)).

(** ** More functions *)

(** [VectorLoad(const word32 src[4])] and
    [VectorLoad(int off, const word32 src[4])]: the array is read as
    bytes, the offset counts bytes. *)
Definition VectorLoad_word32 (cfg : config) (m : memory) (src : Z)
    : uint32x4_p :=
  VectorLoad cfg m src.

Definition VectorLoad_word32_off (cfg : config) (m : memory) (off src : Z)
    : uint32x4_p :=
  VectorLoad_off cfg m off src.

(** [VectorStore(const T data, word32 dest[4])] and
    [VectorStore(const T data, int off, word32 dest[4])]. *)
Definition VectorStore_word32 (cfg : config) (data : uint8x16_p) (dest : Z)
    : stmt :=
  VectorStore_off cfg data 0 dest.

Definition VectorStore_word32_off (cfg : config) (data : uint8x16_p)
    (off dest : Z) : stmt :=
  VectorStore_off cfg data off dest.

(** [VectorAnd(vec1, vec2)], [VectorOr], [VectorXor]: the second operand
    is cast to the type of the first, which changes no bit. *)
Definition VectorAnd (vec1 vec2 : uint8x16_p) : uint8x16_p :=
  vec_and vec1 vec2.

Definition VectorOr (vec1 vec2 : uint8x16_p) : uint8x16_p :=
  vec_or vec1 vec2.

Definition VectorXor (vec1 vec2 : uint8x16_p) : uint8x16_p :=
  vec_xor vec1 vec2.

(** [VectorAdd(vec1, vec2)] and [VectorSub(vec1, vec2)] at [T1]. *)
Definition VectorAdd (cfg : config) (T1 : vector_type)
    (vec1 vec2 : uint8x16_p) : uint8x16_p :=
  vec_add cfg T1 vec1 vec2.

Definition VectorSub (cfg : config) (T1 : vector_type)
    (vec1 vec2 : uint8x16_p) : uint8x16_p :=
  vec_sub cfg T1 vec1 vec2.

(** [VectorRotateLeft<C>(vec)], with [m = {C, C, C, C}]. *)
Definition VectorRotateLeft (cfg : config) (C : Z) (vec : uint32x4_p)
    : uint32x4_p :=
  let m := lit32 cfg [C; C; C; C] in
  vec_rl cfg vec m.

(** [VectorRotateRight<C>(vec)], with [m = {32-C, 32-C, 32-C, 32-C}];
    [C] is an [unsigned int], so that [32-C] wraps modulo [2^32]. *)
Definition VectorRotateRight (cfg : config) (C : Z) (vec : uint32x4_p)
    : uint32x4_p :=
  let m := lit32 cfg [(32 - C) mod 2 ^ 32; (32 - C) mod 2 ^ 32;
                      (32 - C) mod 2 ^ 32; (32 - C) mod 2 ^ 32] in
  vec_rl cfg vec m.

(** [VectorSwapWords(vec)]. *)
Definition VectorSwapWords (cfg : config) (vec : uint8x16_p) : uint8x16_p :=
  vec_sld cfg vec vec 8.

(** [VectorGetLow(val)]. *)
Definition VectorGetLow (cfg : config) (val : uint8x16_p) : uint8x16_p :=
  VectorShiftRightOctet cfg 8 (VectorShiftLeftOctet cfg 8 val).

(** [VectorGetHigh(val)]. *)
Definition VectorGetHigh (cfg : config) (val : uint8x16_p) : uint8x16_p :=
  VectorShiftRightOctet cfg 8 val.

(** The same configuration on a host of the other byte order. *)
Definition with_big_endian (be : bool) (cfg : config) : config :=
  Config (arch_pwr7 cfg) (arch_pwr8 cfg) be (family cfg).

(* ================================================================== *)
(** * What the specification says, in its own words *)
(* ================================================================== *)

(** "The 16 bytes at [[a, a+16)] in native lane order." *)
Definition bytes_at (m : memory) (a : Z) : uint8x16_p :=
  build (fun i => m (a + i)).

(** "Writes exactly the 16 bytes logically represented by the vector to
    [[a, a+16)], leaving all other memory untouched." *)
Definition written_at (v : uint8x16_p) (a : Z) (m : memory) : memory :=
  fun x => if (a <=? x) && (x <? a + 16) then get v (x - a) else m x.

(** "[v] with its low [n] bytes zeroed and the rest preserved", the low
    bytes being the last ones of the big-endian byte stream. *)
Definition zero_low (n : Z) (v : uint8x16_p) : uint8x16_p :=
  build (fun i => if 16 - n <=? i then Byte.x00 else get v i).

(** The same with the low bytes taken to be the first ones. *)
Definition zero_first (n : Z) (v : uint8x16_p) : uint8x16_p :=
  build (fun i => if i <? n then Byte.x00 else get v i).

(** "Whole-vector byte reversal: byte 15 becomes byte 0, etc." *)
Definition reversed (v : uint8x16_p) : uint8x16_p :=
  build (fun i => get v (15 - i)).

(** "True 2-lane 64-bit modular addition": each 64-bit lane of the
    result is the sum of the operands' lanes modulo [2^64]. *)
Definition add64_lanes (xs ys : list Z) : list Z :=
  zip_with (fun x y => (x + y) mod 2 ^ 64) xs ys.

(* ================================================================== *)
(** * Sample configurations and data *)
(* ================================================================== *)

(** A pre-POWER7 AltiVec build, big-endian, GCC. *)
Definition altivec_be : config := Config false false true GNUC.

(** A little-endian build below POWER8 (for instance [-mcpu=power7]
    on a little-endian target), GCC. *)
Definition power7_le : config := Config true false false GNUC.

(** Memory whose byte at address [a] is [a mod 256]. *)
Definition ramp : memory := fun a => byte.of_Z a.

(** Memory filled with [0xEE]. *)
Definition filled : memory := fun _ => Byte.xee.

(** The vector of the bytes [1, 2, ..., 16]. *)
Definition one_to_sixteen : uint8x16_p :=
  lit8 [1;2;3;4; 5;6;7;8; 9;10;11;12; 13;14;15;16].

(* ================================================================== *)
(** * Vectors: access and extensionality *)
(* ================================================================== *)

(** Splits [0 <= i < 16] into its sixteen cases. *)
Ltac index16 i :=
  let H := fresh "Hcase" in
  assert (H : i = 0 \/ i = 1 \/ i = 2 \/ i = 3 \/ i = 4 \/ i = 5 \/ i = 6
              \/ i = 7 \/ i = 8 \/ i = 9 \/ i = 10 \/ i = 11 \/ i = 12
              \/ i = 13 \/ i = 14 \/ i = 15) by lia;
  repeat (destruct H as [H | H]); subst i.

Lemma get_build (f : Z -> byte) (i : Z) :
  0 <= i < 16 -> get (build f) i = f i.
Proof. intros Hi. index16 i; reflexivity. Qed.

Lemma build_get (v : uint8x16_p) : build (get v) = v.
Proof. destruct v; reflexivity. Qed.

Lemma build_ext (f g : Z -> byte) :
  (forall i, 0 <= i < 16 -> f i = g i) -> build f = build g.
Proof.
  intros H. unfold build.
  rewrite (H 0), (H 1), (H 2), (H 3), (H 4), (H 5), (H 6), (H 7),
          (H 8), (H 9), (H 10), (H 11), (H 12), (H 13), (H 14), (H 15)
    by lia.
  reflexivity.
Qed.

Lemma vec_ext (v w : uint8x16_p) :
  (forall i, 0 <= i < 16 -> get v i = get w i) -> v = w.
Proof.
  intros H. rewrite <- (build_get v), <- (build_get w).
  apply build_ext, H.
Qed.

(* ================================================================== *)
(** * Byte reversal *)
(* ================================================================== *)

Lemma Reverse_reversed (v : uint8x16_p) : Reverse v = reversed v.
Proof. destruct v; vm_compute; reflexivity. Qed.

Lemma reversed_reversed (v : uint8x16_p) : reversed (reversed v) = v.
Proof. destruct v; reflexivity. Qed.

(** C8.  For every vector [v], [Reverse(Reverse(v)) = v]: the self-permute
    with the mask 15, 14, ..., 0 puts byte [15 - i] at position [i], and
    doing it twice gives the vector back. *)
Theorem Reverse_involutive (v : uint8x16_p) :
  Reverse v = reversed v /\ Reverse (Reverse v) = v.
Proof.
  split.
  - apply Reverse_reversed.
  - rewrite !Reverse_reversed. apply reversed_reversed.
Qed.

(* ================================================================== *)
(** * Octet shifts and rotations *)
(* ================================================================== *)

Lemma reg_image_involutive (cfg : config) (v : uint8x16_p) :
  reg_image cfg (reg_image cfg v) = v.
Proof. unfold reg_image. destruct (big_endian cfg), v; reflexivity. Qed.

Lemma land_15_range (c : Z) : 0 <= Z.land c 15 < 16.
Proof.
  change 15 with (Z.ones 4). rewrite Z.land_ones by lia.
  apply Z.mod_pos_bound. lia.
Qed.

(** In element order the left shift moves byte [i + C] to position [i]
    and fills with zeros, on either byte order. *)
Lemma VectorShiftLeftOctet_bytes (cfg : config) (C : Z) (v : uint8x16_p) :
  0 <= C ->
  VectorShiftLeftOctet cfg C v =
  build (fun i => if i + C <? 16 then get v (i + C) else Byte.x00).
Proof.
  intros HC. unfold VectorShiftLeftOctet.
  destruct (Z.leb_spec 16 C) as [Hge | Hlt].
  - apply build_ext. intros i Hi.
    destruct (Z.ltb_spec (i + C) 16); [lia | reflexivity].
  - destruct cfg as [p7 p8 be fam]. cbn [big_endian].
    index16 C; destruct be, v; reflexivity.
Qed.

(** The right shift moves byte [i - C] to position [i]. *)
Lemma VectorShiftRightOctet_bytes (cfg : config) (C : Z) (v : uint8x16_p) :
  0 <= C ->
  VectorShiftRightOctet cfg C v =
  build (fun i => if C <=? i then get v (i - C) else Byte.x00).
Proof.
  intros HC. unfold VectorShiftRightOctet.
  destruct (Z.leb_spec 16 C) as [Hge | Hlt].
  - apply build_ext. intros i Hi.
    destruct (Z.leb_spec C i); [lia | reflexivity].
  - destruct cfg as [p7 p8 be fam]. cbn [big_endian].
    index16 C; destruct be, v; reflexivity.
Qed.

(** C7.  For every vector [v] and every byte order: a count [C >= 16]
    makes both [VectorShiftLeftOctet<C>] and [VectorShiftRightOctet<C>]
    return the all-zero vector, and the count 0 makes both return [v]
    unchanged. *)
Theorem shift_octet_out_of_range_and_zero
    (cfg : config) (C : Z) (v : uint8x16_p) :
  16 <= C ->
  VectorShiftLeftOctet cfg C v = zero_vec /\
  VectorShiftRightOctet cfg C v = zero_vec /\
  VectorShiftLeftOctet cfg 0 v = v /\
  VectorShiftRightOctet cfg 0 v = v.
Proof.
  intros HC. unfold VectorShiftLeftOctet, VectorShiftRightOctet.
  destruct (Z.leb_spec 16 C) as [_ | Hlt]; [| lia].
  repeat split; reflexivity.
Qed.

Lemma shift_octet_out_of_range_and_zero_witness :
  VectorShiftLeftOctet power7_le 255 one_to_sixteen = zero_vec /\
  VectorShiftRightOctet power7_le 255 one_to_sixteen = zero_vec /\
  VectorShiftLeftOctet power7_le 0 one_to_sixteen = one_to_sixteen /\
  VectorShiftRightOctet power7_le 0 one_to_sixteen = one_to_sixteen.
Proof.
  apply (shift_octet_out_of_range_and_zero power7_le 255 one_to_sixteen).
  lia.
Defined.

(** The literals of the octet shifts always fit: the branches [C >= 16]
    and [C == 0] leave the counts [C] and [16-C] with [0 < C < 16]. *)
Lemma shift_octet_literals_fit (C : Z) :
  0 < C < 16 -> vec_sld_literal C = true /\ vec_sld_literal (16 - C) = true.
Proof.
  intros HC. unfold vec_sld_literal.
  destruct (Z.leb_spec 0 C), (Z.leb_spec C 15),
    (Z.leb_spec 0 (16 - C)), (Z.leb_spec (16 - C) 15);
    try lia; split; reflexivity.
Qed.

(** The rotations in element order, with [R = C & 0xf]: byte
    [(i + R) mod 16], respectively [(i - R) mod 16], comes to position
    [i], except that with [R = 0] the branch that hands [16 - R] to
    [vec_sld] has no value. *)
Lemma VectorRotateLeftOctet_bytes (cfg : config) (C : Z) (v : uint8x16_p) :
  VectorRotateLeftOctet cfg C v =
  if negb (big_endian cfg) && (Z.land C 15 =? 0) then None
  else Some (build (fun i => get v ((i + Z.land C 15) mod 16))).
Proof.
  unfold VectorRotateLeftOctet.
  pose proof (land_15_range C) as HR.
  generalize dependent (Z.land C 15). intros R HR.
  destruct cfg as [p7 p8 be fam]. cbn [big_endian].
  index16 R; destruct be, v; reflexivity.
Qed.

Lemma VectorRotateRightOctet_bytes (cfg : config) (C : Z) (v : uint8x16_p) :
  VectorRotateRightOctet cfg C v =
  if big_endian cfg && (Z.land C 15 =? 0) then None
  else Some (build (fun i => get v ((i - Z.land C 15) mod 16))).
Proof.
  unfold VectorRotateRightOctet.
  pose proof (land_15_range C) as HR.
  generalize dependent (Z.land C 15). intros R HR.
  destruct cfg as [p7 p8 be fam]. cbn [big_endian].
  index16 R; destruct be, v; reflexivity.
Qed.

(** Where a compiler masks the count instead of refusing it (Clang's
    [altivec.h] applies [& 0x0F]), the count 16 becomes 0 and the
    rotation gives the vector back. *)
Lemma vec_sld_masked_16 (cfg : config) (v : uint8x16_p) :
  vec_sld cfg v v (Z.land 16 15) = v.
Proof. destruct cfg as [p7 p8 be fam]. destruct be, v; reflexivity. Qed.

(** C6: the code at the failing inputs.  At [C = 0] and [C = 16] the
    count is [R = C & 0xf = 0].  [VectorRotateLeftOctet] on a
    little-endian host and [VectorRotateRightOctet] on a big-endian host
    hand [16 - R = 16] to [vec_sld], whose literal must be in [0..15]:
    the call has no value, where the identity was expected.  The other
    branch hands over [R = 0] and gives the vector back. *)
Theorem rotate_octet_0_16_literal (cfg : config) (v : uint8x16_p) :
  vec_sld_literal (16 - Z.land 0 15) = false /\
  vec_sld_literal (16 - Z.land 16 15) = false /\
  VectorRotateLeftOctet cfg 0 v = (if big_endian cfg then Some v else None) /\
  VectorRotateLeftOctet cfg 16 v = (if big_endian cfg then Some v else None) /\
  VectorRotateRightOctet cfg 0 v = (if big_endian cfg then None else Some v) /\
  VectorRotateRightOctet cfg 16 v = (if big_endian cfg then None else Some v).
Proof.
  destruct cfg as [p7 p8 be fam].
  destruct be, v; repeat split; reflexivity.
Qed.

(** C5, as stated, fails.  With [C = 4] and the bytes 1..16, shifting
    right then left gives back the first twelve bytes and zeroes the last
    four; zeroing [16 - C = 12] bytes, at whichever end, gives another
    vector.  (At [C = 0] both shifts return their argument, while the
    statement would have all sixteen bytes zeroed.) *)
Lemma shift_roundtrip_not_16_minus_C :
  let code := VectorShiftLeftOctet altivec_be 4
                (VectorShiftRightOctet altivec_be 4 one_to_sixteen) in
  0 <= 4 <= 15 /\
  code = lit8 [1;2;3;4; 5;6;7;8; 9;10;11;12; 0;0;0;0] /\
  zero_low (16 - 4) one_to_sixteen
    = lit8 [1;2;3;4; 0;0;0;0; 0;0;0;0; 0;0;0;0] /\
  code <> zero_low (16 - 4) one_to_sixteen /\
  code <> zero_first (16 - 4) one_to_sixteen /\
  VectorShiftLeftOctet altivec_be 0
    (VectorShiftRightOctet altivec_be 0 one_to_sixteen)
    <> zero_low (16 - 0) one_to_sixteen.
Proof.
  cbv zeta. split; [lia |].
  split; [vm_compute; reflexivity |].
  split; [vm_compute; reflexivity |].
  repeat split; intros H; vm_compute in H; discriminate H.
Qed.

(** C5, amended.  For every vector [v], every [C] in [0..15] and both
    byte orders, [VectorShiftLeftOctet<C>(VectorShiftRightOctet<C>(v))]
    is [v] with its low [C] bytes zeroed (the last [C] bytes of the
    big-endian byte stream) and the other [16 - C] bytes preserved,
    which is what composing the two byte-window shifts gives. *)
Theorem shift_right_then_left (cfg : config) (C : Z) (v : uint8x16_p) :
  0 <= C <= 15 ->
  VectorShiftLeftOctet cfg C (VectorShiftRightOctet cfg C v) = zero_low C v.
Proof.
  intros HC.
  rewrite VectorShiftLeftOctet_bytes, VectorShiftRightOctet_bytes by lia.
  unfold zero_low. apply build_ext. intros i Hi.
  destruct (Z.ltb_spec (i + C) 16) as [Hin | Hout];
    destruct (Z.leb_spec (16 - C) i) as [Hz | Hk]; try lia;
    try reflexivity.
  rewrite get_build by lia.
  destruct (Z.leb_spec C (i + C)); [| lia].
  f_equal. lia.
Qed.

Lemma shift_right_then_left_witness :
  VectorShiftLeftOctet power7_le 4
    (VectorShiftRightOctet power7_le 4 one_to_sixteen)
  = zero_low 4 one_to_sixteen.
Proof.
  apply (shift_right_then_left power7_le 4 one_to_sixteen). lia.
Defined.

(* ================================================================== *)
(** * Comparison *)
(* ================================================================== *)

Lemma lanes32_V16 (cfg : config)
    (a0 a1 a2 a3 a4 a5 a6 a7 a8 a9 a10 a11 a12 a13 a14 a15 : byte) :
  lanes32 cfg (V16 a0 a1 a2 a3 a4 a5 a6 a7 a8 a9 a10 a11 a12 a13 a14 a15)
  = [lane_val cfg [a0; a1; a2; a3]; lane_val cfg [a4; a5; a6; a7];
     lane_val cfg [a8; a9; a10; a11]; lane_val cfg [a12; a13; a14; a15]].
Proof. reflexivity. Qed.

Lemma lanes64_V16 (cfg : config)
    (a0 a1 a2 a3 a4 a5 a6 a7 a8 a9 a10 a11 a12 a13 a14 a15 : byte) :
  lanes64 cfg (V16 a0 a1 a2 a3 a4 a5 a6 a7 a8 a9 a10 a11 a12 a13 a14 a15)
  = [lane_val cfg [a0; a1; a2; a3; a4; a5; a6; a7];
     lane_val cfg [a8; a9; a10; a11; a12; a13; a14; a15]].
Proof. reflexivity. Qed.

Lemma lane_val_inj (cfg : config) (bs cs : list byte) :
  length bs = length cs -> lane_val cfg bs = lane_val cfg cs -> bs = cs.
Proof.
  unfold lane_val. intros Hlen H. destruct (big_endian cfg).
  - apply le_combine_inj in H; [| now rewrite !length_rev].
    rewrite <- (rev_involutive bs), <- (rev_involutive cs). now f_equal.
  - now apply le_combine_inj.
Qed.

Lemma vec_all_eq_0_or_1 (cfg : config) (a b : uint8x16_p) :
  vec_all_eq cfg a b = 0 \/ vec_all_eq cfg a b = 1.
Proof. unfold vec_all_eq. destruct (forallb _ _); auto. Qed.

(** The comparison under the 32-bit-lane view sees every bit: the four
    lanes agree exactly when the two vectors are the same. *)
Lemma VectorEqual_iff (cfg : config) (v1 v2 : uint8x16_p) :
  VectorEqual cfg v1 v2 = true <-> v1 = v2.
Proof.
  unfold VectorEqual, vec_all_eq. split.
  - destruct v1, v2. rewrite !lanes32_V16. cbn [combine forallb fst snd].
    repeat match goal with
           | |- context [lane_val ?c ?x =? lane_val ?c ?y] =>
               destruct (Z.eqb_spec (lane_val c x) (lane_val c y)) as [? | ?]
           end; cbn; try discriminate.
    intros _.
    repeat match goal with
           | H : lane_val _ _ = lane_val _ _ |- _ =>
               apply lane_val_inj in H; [injection H as; subst | reflexivity]
           end.
    reflexivity.
  - intros ->. destruct v2. rewrite !lanes32_V16.
    cbn [combine forallb fst snd]. rewrite !Z.eqb_refl. reflexivity.
Qed.

(** C10.  For every pair of vectors, [VectorNotEqual(v1, v2)] is the
    negation of [VectorEqual(v1, v2)]: both test the one value of
    [vec_all_eq] under the [uint32x4_p] view, against 0 and against 1,
    so exactly one of the two holds. *)
Theorem VectorNotEqual_negb_VectorEqual (cfg : config) (v1 v2 : uint8x16_p) :
  VectorNotEqual cfg v1 v2 = negb (VectorEqual cfg v1 v2) /\
  xorb (VectorEqual cfg v1 v2) (VectorNotEqual cfg v1 v2) = true.
Proof.
  unfold VectorNotEqual, VectorEqual.
  destruct (vec_all_eq_0_or_1 cfg v1 v2) as [-> | ->]; split; reflexivity.
Qed.

(* ================================================================== *)
(** * Effective addresses *)
(* ================================================================== *)

(** Linear arithmetic with divisions and remainders by constants. *)
Ltac zmod := Z.to_euclidean_division_equations; lia.

Lemma land_neg_pow2 (a k : Z) :
  0 <= k -> Z.land a (- 2 ^ k) = a - a mod 2 ^ k.
Proof.
  intros Hk.
  replace (- 2 ^ k) with (Z.lnot (Z.ones k))
    by (rewrite Z.ones_equiv; unfold Z.lnot; lia).
  rewrite <- Z.ldiff_land, Z.ldiff_ones_r by lia.
  rewrite Z.shiftr_div_pow2, Z.shiftl_mul_pow2 by lia.
  pose proof (Z.div_mod a (2 ^ k)). lia.
Qed.

Lemma land_m16 (a : Z) : Z.land a (-16) = a - a mod 16.
Proof. exact (land_neg_pow2 a 4 ltac:(lia)). Qed.

Lemma land_m4 (a : Z) : Z.land a (-4) = a - a mod 4.
Proof. exact (land_neg_pow2 a 2 ltac:(lia)). Qed.

Lemma land_m2 (a : Z) : Z.land a (-2) = a - a mod 2.
Proof. exact (land_neg_pow2 a 1 ltac:(lia)). Qed.

Lemma land_15 (a : Z) : Z.land a 15 = a mod 16.
Proof. exact (Z.land_ones a 4 ltac:(lia)). Qed.

Lemma land_31 (a : Z) : Z.land a 31 = a mod 32.
Proof. exact (Z.land_ones a 5 ltac:(lia)). Qed.

Lemma IsAlignedOn_16 (p : Z) : IsAlignedOn p 16 = (p mod 16 =? 0).
Proof. unfold IsAlignedOn. change (16 - 1) with 15. now rewrite land_15. Qed.

Lemma unsigned_of_small (z : Z) :
  0 <= z < 256 -> byte.unsigned (byte.of_Z z) = z.
Proof.
  intros Hz. rewrite byte.unsigned_of_Z. unfold byte.wrap.
  apply Z.mod_small. lia.
Qed.

Lemma range_spec (a b x : Z) :
  reflect (a <= x < b) ((a <=? x) && (x <? b)).
Proof.
  destruct (a <=? x) eqn:Hl; destruct (x <? b) eqn:Hr; constructor; lia.
Qed.

(* ================================================================== *)
(** * Loads *)
(* ================================================================== *)

(** With VSX the load is the unaligned load instruction itself. *)
Lemma VectorLoad_off_pwr7 (cfg : config) (m : memory) (off src : Z) :
  arch_pwr7 cfg = true ->
  VectorLoad_off cfg m off src = bytes_at m (src + off).
Proof.
  intros H7. unfold VectorLoad_off. rewrite H7.
  destruct (xlc_or_clang cfg); reflexivity.
Qed.

(** The AltiVec load without an offset is right at every alignment: the
    two blocks it loads are the one holding the first byte and the one
    holding the sixteenth, and [vec_lvsl] picks the window in between. *)
Lemma VectorLoad_ALTIVEC_any_alignment (m : memory) (src : Z) :
  VectorLoad_ALTIVEC m src = bytes_at m src.
Proof.
  unfold VectorLoad_ALTIVEC. rewrite IsAlignedOn_16.
  destruct (Z.eqb_spec (src mod 16) 0) as [Hal | Hmis].
  - unfold vec_ld, bytes_at. apply build_ext. intros i Hi.
    f_equal. rewrite land_m16. zmod.
  - unfold vec_perm, vec_lvsl, vec_ld, bytes_at.
    apply build_ext. intros i Hi.
    rewrite get_build by lia.
    rewrite land_15, !land_m16.
    assert (Hsh : 0 < (src + 0) mod 16 < 16) by zmod.
    rewrite unsigned_of_small by lia.
    rewrite land_31, (Z.mod_small (_ + i) 32) by lia.
    unfold sel.
    destruct (Z.ltb_spec ((src + 0) mod 16 + i) 16);
      rewrite get_build by lia; f_equal; zmod.
Qed.

Lemma VectorLoad_any_alignment (cfg : config) (m : memory) (src : Z) :
  VectorLoad cfg m src = bytes_at m src.
Proof.
  unfold VectorLoad. destruct (arch_pwr7 cfg).
  - unfold vec_vsx_ld, vec_xl, bytes_at.
    destruct (xlc_or_clang cfg); apply build_ext; intros; f_equal; lia.
  - apply VectorLoad_ALTIVEC_any_alignment.
Qed.

(** At offset 0 the two overloads of the AltiVec load are one function. *)
Lemma VectorLoad_ALTIVEC_off_0 (m : memory) (src : Z) :
  VectorLoad_ALTIVEC_off m 0 src = VectorLoad_ALTIVEC m src.
Proof. reflexivity. Qed.

(** The AltiVec load with an offset is right when the array is aligned
    and the offset is a multiple of 16. *)
Lemma VectorLoad_ALTIVEC_off_aligned (m : memory) (off src : Z) :
  src mod 16 = 0 -> off mod 16 = 0 ->
  VectorLoad_ALTIVEC_off m off src = bytes_at m (src + off).
Proof.
  intros Hs Ho. unfold VectorLoad_ALTIVEC_off.
  rewrite IsAlignedOn_16, Hs. cbn [Z.eqb].
  unfold vec_ld, bytes_at. apply build_ext. intros i Hi.
  f_equal. rewrite land_m16. zmod.
Qed.

(** C1: the code at a failing input.  On the AltiVec path (no
    [_ARCH_PWR7]), with [src = 32] (aligned) and [off = 1], the test
    [IsAlignedOn(src, 16)] looks at [src] alone and [vec_ld(off, src)]
    drops the low bits of the address: the call returns the bytes at
    [32..47], not those at [33..48].  With [src = 17] and [off = 16] the
    second block is loaded by [vec_ld(15, src)], without the offset: the
    last byte returned is the one at address 32, not the one at 48. *)
Theorem VectorLoad_off_misses_window :
  VectorLoad_off altivec_be ramp 1 32 = bytes_at ramp 32 /\
  VectorLoad_off altivec_be ramp 1 32 <> bytes_at ramp (32 + 1) /\
  VectorLoad_off altivec_be ramp 16 17
    = lit8 [33;34;35;36; 37;38;39;40; 41;42;43;44; 45;46;47;32] /\
  bytes_at ramp (17 + 16)
    = lit8 [33;34;35;36; 37;38;39;40; 41;42;43;44; 45;46;47;48].
Proof.
  split; [vm_compute; reflexivity |].
  split; [intros H; vm_compute in H; discriminate H |].
  split; vm_compute; reflexivity.
Qed.

(* ================================================================== *)
(** * Stores *)
(* ================================================================== *)

(** With VSX the store is the unaligned store instruction itself. *)
Lemma VectorStore_off_pwr7 (cfg : config) (data : uint8x16_p) (off dest : Z)
    (m : memory) (x : Z) :
  arch_pwr7 cfg = true ->
  VectorStore_off cfg data off dest m x = written_at data (dest + off) m x.
Proof.
  intros H7. unfold VectorStore_off. rewrite H7.
  destruct (xlc_or_clang cfg); reflexivity.
Qed.

(** The vector rotated by [vec_lvsr]: the data byte meant for address
    [a] sits in the register where [vec_ste] looks for it, at the offset
    of [a] in its 16-byte block. *)
Lemma get_lvsr_perm (data : uint8x16_p) (off dest j : Z) :
  0 <= j < 16 ->
  get (vec_perm data data (vec_lvsr off dest)) j
  = get data ((j - (dest + off)) mod 16).
Proof.
  intros Hj. unfold vec_perm, vec_lvsr.
  rewrite !get_build by lia. rewrite land_15.
  assert (Hsh : 0 <= (dest + off) mod 16 < 16) by zmod.
  rewrite unsigned_of_small by lia.
  rewrite land_31, (Z.mod_small _ 32) by lia.
  unfold sel.
  destruct (Z.ltb_spec (16 - (dest + off) mod 16 + j) 16);
    f_equal; zmod.
Qed.

(** An element store of the rotated vector writes, at each address [x]
    it covers, the data byte number [x - (dest + off)] modulo 16. *)
Lemma store_elem_lvsr_perm (n : Z) (data : uint8x16_p) (off dest ea : Z)
    (m : memory) (x : Z) :
  n = 1 \/ n = 2 \/ n = 4 -> ea mod n = 0 ->
  store_elem n (vec_perm data data (vec_lvsr off dest)) ea m x
  = if (ea <=? x) && (x <? ea + n)
    then get data ((x - (dest + off)) mod 16)
    else m x.
Proof.
  intros Hn Hea. unfold store_elem.
  destruct (range_spec ea (ea + n) x) as [Hin | Hout]; [| reflexivity].
  rewrite land_15, get_lvsr_perm by zmod.
  f_equal. zmod.
Qed.

(** What the AltiVec store with an offset does when [dest] is not
    aligned: the eight element stores are addressed from [dest], without
    the offset, and cover [[dest, dest+16)] and nothing else; only the
    rotation of the data takes the offset into account. *)
Lemma VectorStore_ALTIVEC_off_unaligned (data : uint8x16_p) (off dest : Z)
    (m : memory) (x : Z) :
  dest mod 16 <> 0 ->
  VectorStore_ALTIVEC_off data off dest m x
  = if (dest <=? x) && (x <? dest + 16)
    then get data ((x - (dest + off)) mod 16)
    else m x.
Proof.
  intros Hmis. unfold VectorStore_ALTIVEC_off. rewrite IsAlignedOn_16.
  destruct (Z.eqb_spec (dest mod 16) 0) as [Hal | _]; [contradiction |].
  cbv zeta. unfold seq_stmt, vec_ste_u8, vec_ste_u16, vec_ste_u32.
  rewrite !land_m4, !land_m2.
  rewrite !store_elem_lvsr_perm by (try (left; reflexivity);
    try (right; left; reflexivity); try (right; right; reflexivity); zmod).
  destruct (range_spec dest (dest + 16) x) as [Hin | Hout];
    repeat match goal with
           | |- context [(?a <=? x) && (x <? ?b)] =>
               destruct (range_spec a b x)
           end;
    first [ reflexivity | exfalso; zmod ].
Qed.

(** What it does when [dest] is aligned: [vec_st] drops the low four
    bits of [dest + off]. *)
Lemma VectorStore_ALTIVEC_off_aligned (data : uint8x16_p) (off dest : Z)
    (m : memory) (x : Z) :
  dest mod 16 = 0 ->
  VectorStore_ALTIVEC_off data off dest m x
  = written_at data (dest + off - off mod 16) m x.
Proof.
  intros Hal. unfold VectorStore_ALTIVEC_off.
  rewrite IsAlignedOn_16, Hal. cbn [Z.eqb].
  unfold vec_st, store_elem, written_at.
  rewrite land_15, land_m16.
  replace (dest + off - (dest + off) mod 16)
    with (dest + off - off mod 16) by zmod.
  destruct (range_spec (dest + off - off mod 16)
              (dest + off - off mod 16 + 16) x); [| reflexivity].
  f_equal. zmod.
Qed.

(** At offset 0 the two overloads of the AltiVec store are one function. *)
Lemma VectorStore_ALTIVEC_off_0_same (data : uint8x16_p) (dest : Z) :
  VectorStore_ALTIVEC_off data 0 dest = VectorStore_ALTIVEC data dest.
Proof. reflexivity. Qed.

(** Without an offset the AltiVec store is right at every alignment. *)
Lemma VectorStore_ALTIVEC_off_0 (data : uint8x16_p) (dest : Z)
    (m : memory) (x : Z) :
  VectorStore_ALTIVEC_off data 0 dest m x = written_at data dest m x.
Proof.
  destruct (Z.eq_dec (dest mod 16) 0) as [Hal | Hmis].
  - rewrite VectorStore_ALTIVEC_off_aligned by assumption.
    f_equal. zmod.
  - rewrite VectorStore_ALTIVEC_off_unaligned by assumption.
    unfold written_at.
    destruct (range_spec dest (dest + 16) x); [| reflexivity].
    f_equal. zmod.
Qed.

Lemma VectorStore_any_alignment (cfg : config) (data : uint8x16_p)
    (dest : Z) (m : memory) (x : Z) :
  VectorStore cfg data dest m x = written_at data dest m x.
Proof.
  unfold VectorStore. destruct (arch_pwr7 cfg).
  - unfold vec_vsx_st, vec_xst, written_at. rewrite Z.add_0_r.
    destruct (xlc_or_clang cfg); reflexivity.
  - apply VectorStore_ALTIVEC_off_0.
Qed.

(** C2: the code at a failing input.  On the AltiVec path (no
    [_ARCH_PWR7]), storing the bytes 1..16 with [dest = 17] and
    [off = 16] into memory filled with [0xEE]: the element stores are
    addressed from [dest], so that address 17, outside [[33, 49)],
    receives the first data byte, and address 48, the last of the
    window, keeps [0xEE].  With [dest = 32] (aligned) and [off = 1],
    [vec_st] drops the low bits: address 32 is written and address 48
    is not. *)
Theorem VectorStore_off_misses_window :
  VectorStore_off altivec_be one_to_sixteen 16 17 filled 17 = Byte.x01 /\
  written_at one_to_sixteen (17 + 16) filled 17 = Byte.xee /\
  VectorStore_off altivec_be one_to_sixteen 16 17 filled 48 = Byte.xee /\
  written_at one_to_sixteen (17 + 16) filled 48 = Byte.x10 /\
  VectorStore_off altivec_be one_to_sixteen 1 32 filled 32 = Byte.x01 /\
  written_at one_to_sixteen (32 + 1) filled 32 = Byte.xee /\
  VectorStore_off altivec_be one_to_sixteen 1 32 filled 48 = Byte.xee /\
  written_at one_to_sixteen (32 + 1) filled 48 = Byte.x10.
Proof. repeat split; vm_compute; reflexivity. Qed.

(* ================================================================== *)
(** * Big-endian loads and stores *)
(* ================================================================== *)

Lemma vec_xl_0 (m : memory) (src : Z) : vec_xl m 0 src = bytes_at m src.
Proof.
  unfold vec_xl, bytes_at. apply build_ext. intros. f_equal. lia.
Qed.

Lemma reg_image_reversed (cfg : config) (v : uint8x16_p) :
  reg_image cfg v = if big_endian cfg then v else reversed v.
Proof. reflexivity. Qed.

(** [VectorLoadBE] returns the bytes of the buffer, reversed as a whole
    on a little-endian host, in every configuration. *)
Lemma VectorLoadBE_bytes (cfg : config) (m : memory) (src : Z) :
  VectorLoadBE cfg m src
  = if big_endian cfg then bytes_at m src else reversed (bytes_at m src).
Proof.
  unfold VectorLoadBE, vec_xl_be, vec_vsx_ld.
  rewrite !Reverse_reversed, VectorLoad_any_alignment, vec_xl_0,
    reg_image_reversed.
  destruct (arch_pwr7 cfg), (xlc_or_clang cfg), (big_endian cfg);
    reflexivity.
Qed.

(** [VectorStoreBE] writes the bytes of the vector, reversed as a whole
    on a little-endian host, and nothing else. *)
Lemma VectorStoreBE_bytes (cfg : config) (v : uint8x16_p) (dest : Z)
    (m : memory) (x : Z) :
  VectorStoreBE cfg v dest m x
  = written_at (if big_endian cfg then v else reversed v) dest m x.
Proof.
  unfold VectorStoreBE, vec_xst_be, vec_vsx_st.
  rewrite reg_image_reversed.
  destruct (arch_pwr7 cfg), (xlc_or_clang cfg), (big_endian cfg);
    rewrite ?VectorStore_any_alignment, ?Reverse_reversed;
    unfold vec_xst, written_at; rewrite ?Z.add_0_r; reflexivity.
Qed.

(** C3.  In every configuration, big-endian or little-endian, with or
    without VSX, storing with [VectorStoreBE] what [VectorLoadBE] loaded
    from a buffer writes the buffer's 16 bytes, in their order: stored
    back to the buffer it leaves memory as it was, and stored elsewhere
    it copies the buffer and touches nothing else.  On a little-endian
    host each of the two reverses the 16 bytes as a whole; on a
    big-endian host neither reorders them. *)
Theorem VectorStoreBE_VectorLoadBE
    (cfg : config) (m : memory) (src dest : Z) (v : uint8x16_p) (x : Z) :
  VectorStoreBE cfg (VectorLoadBE cfg m src) src m x = m x /\
  VectorStoreBE cfg (VectorLoadBE cfg m src) dest m x
    = written_at (bytes_at m src) dest m x /\
  VectorLoadBE cfg m src
    = (if big_endian cfg then bytes_at m src
       else reversed (bytes_at m src)) /\
  VectorStoreBE cfg v dest m x
    = written_at (if big_endian cfg then v else reversed v) dest m x.
Proof.
  assert (Hcopy : forall d,
             VectorStoreBE cfg (VectorLoadBE cfg m src) d m x
             = written_at (bytes_at m src) d m x).
  { intros d. rewrite VectorStoreBE_bytes, VectorLoadBE_bytes.
    destruct (big_endian cfg); [reflexivity |].
    now rewrite reversed_reversed. }
  repeat split.
  - rewrite Hcopy. unfold written_at, bytes_at.
    destruct (range_spec src (src + 16) x); [| reflexivity].
    rewrite get_build by lia. f_equal. lia.
  - apply Hcopy.
  - apply VectorLoadBE_bytes.
  - apply VectorStoreBE_bytes.
Qed.

(* ================================================================== *)
(** * Lanes and their bytes *)
(* ================================================================== *)

Lemma lane_bytes_length (cfg : config) (n : nat) (z : Z) :
  length (lane_bytes cfg n z) = n.
Proof.
  unfold lane_bytes. destruct (big_endian cfg);
    rewrite ?length_rev; apply length_le_split.
Qed.

Lemma lane_val_lane_bytes (cfg : config) (n : nat) (z : Z) :
  lane_val cfg (lane_bytes cfg n z) = z mod 2 ^ (Z.of_nat n * 8).
Proof.
  unfold lane_val, lane_bytes. destruct (big_endian cfg);
    rewrite ?rev_involutive; apply le_combine_split.
Qed.

Lemma lane_bytes_mod (cfg : config) (n : nat) (z : Z) :
  lane_bytes cfg n z = lane_bytes cfg n (z mod 2 ^ (Z.of_nat n * 8)).
Proof.
  unfold lane_bytes. now rewrite <- le_split_mod.
Qed.

Lemma lane_val_bound (cfg : config) (bs : list byte) :
  0 <= lane_val cfg bs < 2 ^ (8 * Z.of_nat (length bs)).
Proof.
  unfold lane_val. destruct (big_endian cfg).
  - rewrite <- length_rev. apply le_combine_bound.
  - apply le_combine_bound.
Qed.

Lemma lane_val_lane_bytes_4 (cfg : config) (z : Z) :
  lane_val cfg (lane_bytes cfg 4 z) = z mod 2 ^ 32.
Proof. exact (lane_val_lane_bytes cfg 4 z). Qed.

Lemma lane_val_lane_bytes_8 (cfg : config) (z : Z) :
  lane_val cfg (lane_bytes cfg 8 z) = z mod 2 ^ 64.
Proof. exact (lane_val_lane_bytes cfg 8 z). Qed.

Lemma lane_bytes_4_0 (cfg : config) :
  lane_bytes cfg 4 0 = [Byte.x00; Byte.x00; Byte.x00; Byte.x00].
Proof. unfold lane_bytes. destruct (big_endian cfg); reflexivity. Qed.

Lemma lane_bytes_mod_4 (cfg : config) (z : Z) :
  lane_bytes cfg 4 (z mod 2 ^ 32) = lane_bytes cfg 4 z.
Proof. symmetry. exact (lane_bytes_mod cfg 4 z). Qed.

(** Makes the bytes of a lane explicit. *)
Ltac lane_bytes_explicit cfg n z :=
  let H := fresh "Hlen" in
  let E := fresh "Ebytes" in
  pose proof (lane_bytes_length cfg n z) as H;
  destruct (lane_bytes cfg n z)
    as [| ? [| ? [| ? [| ? [| ? [| ? [| ? [| ? [| ? ?]]]]]]]]] eqn:E;
  try discriminate H; clear H.

Lemma lanes32_of_lanes (cfg : config) (x0 x1 x2 x3 : Z) :
  lanes32 cfg (of_lanes cfg 4 [x0; x1; x2; x3])
  = [x0 mod 2 ^ 32; x1 mod 2 ^ 32; x2 mod 2 ^ 32; x3 mod 2 ^ 32].
Proof.
  rewrite <- (lane_val_lane_bytes_4 cfg x0), <- (lane_val_lane_bytes_4 cfg x1),
    <- (lane_val_lane_bytes_4 cfg x2), <- (lane_val_lane_bytes_4 cfg x3).
  unfold of_lanes. cbn [map concat].
  lane_bytes_explicit cfg 4%nat x0. lane_bytes_explicit cfg 4%nat x1.
  lane_bytes_explicit cfg 4%nat x2. lane_bytes_explicit cfg 4%nat x3.
  reflexivity.
Qed.

Lemma lanes64_of_lanes (cfg : config) (x0 x1 : Z) :
  lanes64 cfg (of_lanes cfg 8 [x0; x1]) = [x0 mod 2 ^ 64; x1 mod 2 ^ 64].
Proof.
  rewrite <- (lane_val_lane_bytes_8 cfg x0), <- (lane_val_lane_bytes_8 cfg x1).
  unfold of_lanes. cbn [map concat].
  lane_bytes_explicit cfg 8%nat x0. lane_bytes_explicit cfg 8%nat x1.
  reflexivity.
Qed.

Lemma lor_shiftl_add (a b n : Z) :
  0 <= n -> 0 <= a < 2 ^ n -> Z.lor a (Z.shiftl b n) = a + b * 2 ^ n.
Proof.
  intros Hn Ha.
  assert (Hland : Z.land a (Z.shiftl b n) = 0).
  { apply Z.bits_inj'. intros i Hi.
    rewrite Z.land_spec, Z.bits_0, Z.shiftl_spec by lia.
    destruct (Z.lt_ge_cases i n) as [Hlt | Hge].
    - rewrite (Z.testbit_neg_r b (i - n)) by lia. apply andb_false_r.
    - rewrite <- (Z.mod_small a (2 ^ n)) by lia.
      rewrite Z.mod_pow2_bits_high by lia. reflexivity. }
  pose proof (Z.add_lor_land a (Z.shiftl b n)) as Hadd.
  rewrite Hland, Z.shiftl_mul_pow2 in Hadd by lia.
  rewrite Z.shiftl_mul_pow2 by lia. lia.
Qed.

Lemma le_split_app (n k : nat) (z : Z) :
  le_split (n + k) z
  = le_split n z ++ le_split k (Z.shiftr z (8 * Z.of_nat n)).
Proof.
  revert z. induction n as [| n IH]; intros z.
  - cbn [Nat.add app]. now rewrite Z.shiftr_0_r.
  - change (le_split (S n + k) z)
      with (byte.of_Z z :: le_split (n + k) (Z.shiftr z 8)).
    change (le_split (S n) z)
      with (byte.of_Z z :: le_split n (Z.shiftr z 8)).
    rewrite IH, Z.shiftr_shiftr by lia. cbn [app].
    replace (8 + 8 * Z.of_nat n) with (8 * Z.of_nat (S n)) by lia.
    reflexivity.
Qed.

(** On a big-endian host the first four bytes of a 64-bit lane are its
    high half. *)
Lemma lane_bytes_8_big_endian (cfg : config) (t : Z) :
  big_endian cfg = true ->
  lane_bytes cfg 8 t = lane_bytes cfg 4 (t / 2 ^ 32) ++ lane_bytes cfg 4 t.
Proof.
  intros Hbe. unfold lane_bytes. rewrite Hbe.
  change 8%nat with (4 + 4)%nat.
  rewrite le_split_app, rev_app_distr, Z.shiftr_div_pow2 by lia.
  reflexivity.
Qed.

Lemma lane_val_8_big_endian (cfg : config) (a0 a1 a2 a3 a4 a5 a6 a7 : byte) :
  big_endian cfg = true ->
  lane_val cfg [a0; a1; a2; a3; a4; a5; a6; a7]
  = lane_val cfg [a0; a1; a2; a3] * 2 ^ 32 + lane_val cfg [a4; a5; a6; a7].
Proof.
  intros Hbe. unfold lane_val. rewrite Hbe. cbn [rev app].
  change [a7; a6; a5; a4; a3; a2; a1; a0]
    with ([a7; a6; a5; a4] ++ [a3; a2; a1; a0]).
  rewrite le_combine_app. cbn [length].
  pose proof (le_combine_bound [a7; a6; a5; a4]) as Hb. cbn [length] in Hb.
  rewrite lor_shiftl_add by lia. lia.
Qed.

(** The carry mask: lane 1 of the first operand to lane 0, lane 3 to
    lane 2, and the first byte of the second operand everywhere else. *)
Lemma vec_perm_cmask
    (c0 c1 c2 c3 c4 c5 c6 c7 c8 c9 c10 c11 c12 c13 c14 c15 : byte)
    (z : uint8x16_p) :
  vec_perm (V16 c0 c1 c2 c3 c4 c5 c6 c7 c8 c9 c10 c11 c12 c13 c14 c15) z
    (lit8 [4;5;6;7; 16;16;16;16; 12;13;14;15; 16;16;16;16])
  = V16 c4 c5 c6 c7 (e0 z) (e0 z) (e0 z) (e0 z)
        c12 c13 c14 c15 (e0 z) (e0 z) (e0 z) (e0 z).
Proof. destruct z. vm_compute. reflexivity. Qed.

(** The arithmetic of the carry: the high word of a 64-bit sum is the
    sum of the high words plus the carry out of the low words. *)
Lemma add64_by_halves (ah al bh bl : Z) :
  0 <= ah < 2 ^ 32 -> 0 <= al < 2 ^ 32 ->
  0 <= bh < 2 ^ 32 -> 0 <= bl < 2 ^ 32 ->
  let t := ((ah * 2 ^ 32 + al) + (bh * 2 ^ 32 + bl)) mod 2 ^ 64 in
  (((ah + bh) mod 2 ^ 32) mod 2 ^ 32
     + ((al + bl) / 2 ^ 32) mod 2 ^ 32) mod 2 ^ 32
  = (t / 2 ^ 32) mod 2 ^ 32 /\
  (((al + bl) mod 2 ^ 32) mod 2 ^ 32 + 0 mod 2 ^ 32) mod 2 ^ 32
  = t mod 2 ^ 32.
Proof.
  intros Hah Hal Hbh Hbl t. subst t.
  change (2 ^ 64) with 18446744073709551616.
  change (2 ^ 32) with 4294967296 in *.
  split; zmod.
Qed.

(* ================================================================== *)
(** * 64-bit addition *)
(* ================================================================== *)

(** The native addition adds the 64-bit lanes modulo [2^64]. *)
Lemma vec_add_u64_lanes (cfg : config) (v1 v2 : uint8x16_p) :
  lanes64 cfg (vec_add_u64 cfg v1 v2)
  = add64_lanes (lanes64 cfg v1) (lanes64 cfg v2).
Proof.
  unfold vec_add_u64, add64_lanes. destruct v1, v2.
  rewrite !lanes64_V16. cbn [zip_with].
  rewrite lanes64_of_lanes, !Z.mod_mod by lia. reflexivity.
Qed.

(** On a big-endian host the carry emulation is the native addition:
    the mask takes the carries out of lanes 1 and 3, which there are the
    low halves of the two 64-bit lanes, to lanes 0 and 2, the high
    halves. *)
Lemma VectorAdd64_fallback_big_endian (cfg : config) (v1 v2 : uint8x16_p) :
  arch_pwr8 cfg = false -> big_endian cfg = true ->
  VectorAdd64 cfg v1 v2 = vec_add_u64 cfg v1 v2.
Proof.
  intros Hp8 Hbe. unfold VectorAdd64. rewrite Hp8. cbv zeta.
  unfold vec_add_u64, vec_addc. unfold vec_add_u32 at 1.
  unfold vec_add_u32. destruct v1, v2.
  rewrite !lanes32_V16, !lanes64_V16. cbn [zip_with].
  rewrite lanes32_of_lanes.
  rewrite !lane_val_8_big_endian by assumption.
  repeat match goal with
         | |- context [lane_val cfg [?a; ?b; ?c; ?d]] =>
             let x := fresh "w" in
             let Hx := fresh "Hw" in
             pose proof (lane_val_bound cfg [a; b; c; d]) as Hx;
             cbn [length] in Hx;
             change (8 * Z.of_nat 4) with 32 in Hx;
             set (x := lane_val cfg [a; b; c; d]) in *;
             clearbody x
         end.
  (* the permuted carries, as lanes *)
  match goal with
  | |- context [vec_perm (of_lanes cfg 4 [?c0; ?c1; ?c2; ?c3]) ?z ?mask] =>
      assert (Hcy : lanes32 cfg (vec_perm (of_lanes cfg 4 [c0; c1; c2; c3])
                                   z mask)
                    = [c1 mod 2 ^ 32; 0 mod 2 ^ 32;
                       c3 mod 2 ^ 32; 0 mod 2 ^ 32])
  end.
  { rewrite <- (lanes32_of_lanes cfg).
    unfold of_lanes, lit32, of_lanes. cbn [map concat].
    rewrite !lane_bytes_4_0.
    repeat match goal with
           | |- context [lane_bytes cfg 4 ?z] =>
               lane_bytes_explicit cfg 4%nat z
           end.
    reflexivity. }
  rewrite Hcy. cbn [zip_with].
  unfold of_lanes. cbn [map concat].
  rewrite !lane_bytes_8_big_endian by assumption.
  rewrite <- !app_assoc.
  repeat match goal with
         | |- context [(?ah * 2 ^ 32 + ?al + (?bh * 2 ^ 32 + ?bl)) mod 2 ^ 64] =>
             destruct (add64_by_halves ah al bh bl) as [-> ->];
             try assumption
         end.
  rewrite !lane_bytes_mod_4. reflexivity.
Qed.

(** Where the emulation is right: with the native addition of POWER8,
    and below POWER8 on a big-endian host. *)
Lemma VectorAdd64_adds_64_bit_lanes (cfg : config) (v1 v2 : uint8x16_p) :
  arch_pwr8 cfg = true \/ big_endian cfg = true ->
  lanes64 cfg (VectorAdd64 cfg v1 v2)
  = add64_lanes (lanes64 cfg v1) (lanes64 cfg v2).
Proof.
  intros H. rewrite <- vec_add_u64_lanes. f_equal.
  destruct (arch_pwr8 cfg) eqn:Hp8.
  - unfold VectorAdd64. now rewrite Hp8.
  - destruct H as [H | H]; [discriminate |].
    now apply VectorAdd64_fallback_big_endian.
Qed.

(** The case the specification singles out, on the big-endian fallback:
    [0x00000000FFFFFFFF + 1 = 0x0000000100000000] in one 64-bit lane,
    the other lane untouched. *)
Lemma VectorAdd64_carry_big_endian :
  let v1 := lit32 altivec_be [0; 4294967295; 7; 9] in
  let v2 := lit32 altivec_be [0; 1; 0; 0] in
  lanes64 altivec_be v1 = [4294967295; 7 * 2 ^ 32 + 9] /\
  lanes64 altivec_be (VectorAdd64 altivec_be v1 v2)
    = [4294967296; 7 * 2 ^ 32 + 9].
Proof. split; vm_compute; reflexivity. Qed.

(** C4: the code at a failing input.  On a little-endian host below
    POWER8 the 64-bit lane 0 is made of the 32-bit lanes 0 (low half) and
    1 (high half), while the mask still takes the carries out of lanes 1
    and 3 to lanes 0 and 2.  Adding 1 to a lane holding
    [0x00000000FFFFFFFF] gives 0, not [0x0000000100000000]: the carry out
    of the low half is dropped.  Adding [0x0000000100000000] to
    [0xFFFFFFFF00000000] gives 1, not 0: the carry out of the high half
    comes back into the low half. *)
Theorem VectorAdd64_little_endian_fallback :
  let v1 := lit32 power7_le [4294967295; 0; 5; 0] in
  let v2 := lit32 power7_le [1; 0; 0; 0] in
  let w1 := lit32 power7_le [0; 4294967295; 5; 0] in
  let w2 := lit32 power7_le [0; 1; 0; 0] in
  arch_pwr8 power7_le = false /\
  lanes64 power7_le v1 = [4294967295; 5] /\
  lanes64 power7_le v2 = [1; 0] /\
  lanes64 power7_le (VectorAdd64 power7_le v1 v2) = [0; 5] /\
  add64_lanes (lanes64 power7_le v1) (lanes64 power7_le v2)
    = [4294967296; 5] /\
  lanes64 power7_le (VectorAdd64 power7_le w1 w2) = [1; 5] /\
  add64_lanes (lanes64 power7_le w1) (lanes64 power7_le w2) = [0; 5].
Proof. repeat split; vm_compute; reflexivity. Qed.

(* ================================================================== *)
(** * Loads and stores: further properties *)
(* ================================================================== *)

(** X1.  The loads without an offset return the 16 bytes at [src], in
    every configuration and whatever the alignment of [src]: the AltiVec
    fallback, the dispatching [VectorLoad] and its [word32] overload. *)
Theorem VectorLoad_reads_window (cfg : config) (m : memory) (src : Z) :
  VectorLoad_ALTIVEC m src = bytes_at m src /\
  VectorLoad cfg m src = bytes_at m src /\
  VectorLoad_word32 cfg m src = bytes_at m src.
Proof.
  repeat split.
  - apply VectorLoad_ALTIVEC_any_alignment.
  - apply VectorLoad_any_alignment.
  - apply VectorLoad_any_alignment.
Qed.

(** X2.  The stores without an offset write the 16 bytes of the vector
    to [[dest, dest+16)] and leave every other byte of memory as it was,
    in every configuration and whatever the alignment of [dest]. *)
Theorem VectorStore_writes_window
    (cfg : config) (data : uint8x16_p) (dest : Z) (m : memory) (x : Z) :
  VectorStore_ALTIVEC data dest m x = written_at data dest m x /\
  VectorStore cfg data dest m x = written_at data dest m x /\
  VectorStore_word32 cfg data dest m x = written_at data dest m x.
Proof.
  repeat split.
  - rewrite <- VectorStore_ALTIVEC_off_0_same.
    apply VectorStore_ALTIVEC_off_0.
  - apply VectorStore_any_alignment.
  - unfold VectorStore_word32, VectorStore_off.
    destruct (arch_pwr7 cfg).
    + unfold vec_vsx_st, vec_xst, written_at. rewrite Z.add_0_r.
      destruct (xlc_or_clang cfg); reflexivity.
    + apply VectorStore_ALTIVEC_off_0.
Qed.

(** X3.  With an offset, the loads and stores are right in every
    configuration when the array is 16-byte aligned and the offset is a
    multiple of 16 (the way round keys are indexed). *)
Theorem offset_access_aligned
    (cfg : config) (m : memory) (data : uint8x16_p) (off p x : Z) :
  p mod 16 = 0 -> off mod 16 = 0 ->
  VectorLoad_off cfg m off p = bytes_at m (p + off) /\
  VectorStore_off cfg data off p m x = written_at data (p + off) m x.
Proof.
  intros Hp Hoff. split.
  - destruct (arch_pwr7 cfg) eqn:H7.
    + now apply VectorLoad_off_pwr7.
    + unfold VectorLoad_off. rewrite H7.
      now apply VectorLoad_ALTIVEC_off_aligned.
  - destruct (arch_pwr7 cfg) eqn:H7.
    + now apply VectorStore_off_pwr7.
    + unfold VectorStore_off. rewrite H7.
      rewrite VectorStore_ALTIVEC_off_aligned by assumption.
      rewrite Hoff, Z.sub_0_r. reflexivity.
Qed.

Lemma offset_access_aligned_witness :
  VectorLoad_off altivec_be ramp 32 16 = bytes_at ramp (16 + 32) /\
  VectorStore_off altivec_be one_to_sixteen 32 16 filled 50
  = written_at one_to_sixteen (16 + 32) filled 50.
Proof.
  apply (offset_access_aligned altivec_be ramp one_to_sixteen 32 16 50);
    reflexivity.
Defined.

(** X4.  What the AltiVec store with an offset writes when [dest] is
    not 16-byte aligned: the eight element stores together cover
    [[dest, dest+16)] exactly, for any offset; byte [k] of that window
    receives byte [(k - off) mod 16] of the data, and no byte outside it
    changes. *)
Theorem VectorStore_ALTIVEC_off_footprint
    (data : uint8x16_p) (off dest : Z) (m : memory) (x k : Z) :
  dest mod 16 <> 0 -> 0 <= k < 16 -> x < dest \/ dest + 16 <= x ->
  VectorStore_ALTIVEC_off data off dest m (dest + k)
    = get data ((k - off) mod 16) /\
  VectorStore_ALTIVEC_off data off dest m x = m x.
Proof.
  intros Hmis Hk Hout.
  rewrite !VectorStore_ALTIVEC_off_unaligned by assumption. split.
  - destruct (range_spec dest (dest + 16) (dest + k)); [| lia].
    f_equal. zmod.
  - destruct (range_spec dest (dest + 16) x); [lia | reflexivity].
Qed.

Lemma VectorStore_ALTIVEC_off_footprint_witness :
  VectorStore_ALTIVEC_off one_to_sixteen 5 19 filled (19 + 2)
    = get one_to_sixteen ((2 - 5) mod 16) /\
  VectorStore_ALTIVEC_off one_to_sixteen 5 19 filled 40 = filled 40.
Proof.
  apply (VectorStore_ALTIVEC_off_footprint one_to_sixteen 5 19 filled 40 2).
  - vm_compute. discriminate.
  - lia.
  - right. lia.
Defined.

(** X5.  A vector stored with [VectorStore] is read back by
    [VectorLoad] from the same address, in every configuration and at
    every alignment. *)
Theorem VectorLoad_VectorStore
    (cfg : config) (v : uint8x16_p) (dest : Z) (m : memory) :
  VectorLoad cfg (VectorStore cfg v dest m) dest = v.
Proof.
  rewrite VectorLoad_any_alignment. unfold bytes_at.
  transitivity (build (get v)); [| apply build_get].
  apply build_ext. intros i Hi.
  rewrite VectorStore_any_alignment. unfold written_at.
  destruct (range_spec dest (dest + 16) (dest + i)); [| lia].
  f_equal. lia.
Qed.

(** X6.  A store does not disturb what a load reads from a window that
    does not overlap the stored one. *)
Theorem VectorLoad_VectorStore_disjoint
    (cfg : config) (v : uint8x16_p) (src dest : Z) (m : memory) :
  src + 16 <= dest \/ dest + 16 <= src ->
  VectorLoad cfg (VectorStore cfg v dest m) src = VectorLoad cfg m src.
Proof.
  intros Hdisj. rewrite !VectorLoad_any_alignment. unfold bytes_at.
  apply build_ext. intros i Hi.
  rewrite VectorStore_any_alignment. unfold written_at.
  destruct (range_spec dest (dest + 16) (src + i)); [lia | reflexivity].
Qed.

Lemma VectorLoad_VectorStore_disjoint_witness :
  VectorLoad altivec_be (VectorStore altivec_be one_to_sixteen 35 ramp) 19
  = VectorLoad altivec_be ramp 19.
Proof.
  apply (VectorLoad_VectorStore_disjoint altivec_be one_to_sixteen 19 35 ramp).
  left. lia.
Defined.

(** X7.  A vector stored with [VectorStoreBE] is read back by
    [VectorLoadBE], on either byte order: the two reversals of a
    little-endian host cancel. *)
Theorem VectorLoadBE_VectorStoreBE
    (cfg : config) (v : uint8x16_p) (dest : Z) (m : memory) :
  VectorLoadBE cfg (VectorStoreBE cfg v dest m) dest = v.
Proof.
  rewrite VectorLoadBE_bytes.
  assert (Hb : bytes_at (VectorStoreBE cfg v dest m) dest
               = if big_endian cfg then v else reversed v).
  { unfold bytes_at.
    transitivity (build (get (if big_endian cfg then v else reversed v)));
      [| apply build_get].
    apply build_ext. intros i Hi.
    rewrite VectorStoreBE_bytes. unfold written_at.
    destruct (range_spec dest (dest + 16) (dest + i)); [| lia].
    f_equal. lia. }
  rewrite Hb. destruct (big_endian cfg); [reflexivity |].
  apply reversed_reversed.
Qed.

(** X8.  [VectorLoadBE] gives the four big-endian 32-bit words of the
    buffer as lane values on every host; on a little-endian host they
    come in reverse lane order, the reversal being of the whole
    vector. *)
Theorem VectorLoadBE_lanes (cfg : config) (m : memory) (src : Z) :
  lanes32 cfg (VectorLoadBE cfg m src)
  = let words := lanes32 (with_big_endian true cfg) (bytes_at m src) in
    if big_endian cfg then words else rev words.
Proof.
  rewrite VectorLoadBE_bytes. destruct cfg as [p7 p8 be fam].
  destruct be; reflexivity.
Qed.

(* ================================================================== *)
(** * Octet shifts and rotations: further properties *)
(* ================================================================== *)

(** X9.  The octet shifts do the same thing to the bytes on a
    big-endian and on a little-endian host, for every count: the left
    shift brings byte [i + C] to position [i], the right shift byte
    [i - C], and the vacated positions are zero. *)
Theorem shift_octet_bytes (cfg : config) (C : Z) (v : uint8x16_p) :
  0 <= C ->
  VectorShiftLeftOctet cfg C v
    = build (fun i => if i + C <? 16 then get v (i + C) else Byte.x00) /\
  VectorShiftRightOctet cfg C v
    = build (fun i => if C <=? i then get v (i - C) else Byte.x00).
Proof.
  intros HC. split.
  - now apply VectorShiftLeftOctet_bytes.
  - now apply VectorShiftRightOctet_bytes.
Qed.

Lemma shift_octet_bytes_witness :
  VectorShiftLeftOctet power7_le 3 one_to_sixteen
    = build (fun i => if i + 3 <? 16 then get one_to_sixteen (i + 3)
                      else Byte.x00) /\
  VectorShiftRightOctet power7_le 3 one_to_sixteen
    = build (fun i => if 3 <=? i then get one_to_sixteen (i - 3)
                      else Byte.x00).
Proof. apply (shift_octet_bytes power7_le 3 one_to_sixteen). lia. Defined.

(** X10.  Shifts in one direction add up: shifting by [D] and then by
    [C] is shifting by [C + D], also when a count or their sum is 16 or
    more, where all three are the zero vector. *)
Theorem shift_octet_compose (cfg : config) (C D : Z) (v : uint8x16_p) :
  0 <= C -> 0 <= D ->
  VectorShiftLeftOctet cfg C (VectorShiftLeftOctet cfg D v)
    = VectorShiftLeftOctet cfg (C + D) v /\
  VectorShiftRightOctet cfg C (VectorShiftRightOctet cfg D v)
    = VectorShiftRightOctet cfg (C + D) v.
Proof.
  intros HC HD.
  rewrite !VectorShiftLeftOctet_bytes, !VectorShiftRightOctet_bytes by lia.
  split; apply build_ext; intros i Hi.
  - destruct (Z.ltb_spec (i + C) 16); destruct (Z.ltb_spec (i + (C + D)) 16);
      try lia; try reflexivity.
    + rewrite get_build by lia.
      destruct (Z.ltb_spec (i + C + D) 16); [| lia]. f_equal. lia.
    + rewrite get_build by lia.
      destruct (Z.ltb_spec (i + C + D) 16); [lia | reflexivity].
  - destruct (Z.leb_spec C i); destruct (Z.leb_spec (C + D) i);
      try lia; try reflexivity.
    + rewrite get_build by lia.
      destruct (Z.leb_spec D (i - C)); [| lia]. f_equal. lia.
    + rewrite get_build by lia.
      destruct (Z.leb_spec D (i - C)); [lia | reflexivity].
Qed.

Lemma shift_octet_compose_witness :
  VectorShiftLeftOctet power7_le 9 (VectorShiftLeftOctet power7_le 9 one_to_sixteen)
    = VectorShiftLeftOctet power7_le (9 + 9) one_to_sixteen /\
  VectorShiftRightOctet power7_le 9 (VectorShiftRightOctet power7_le 9 one_to_sixteen)
    = VectorShiftRightOctet power7_le (9 + 9) one_to_sixteen.
Proof.
  apply (shift_octet_compose power7_le 9 9 one_to_sixteen); lia.
Defined.

(** X11.  Shifting left and then right by the same count clears the
    first [C] bytes and keeps the others, for every count. *)
Theorem shift_left_then_right (cfg : config) (C : Z) (v : uint8x16_p) :
  0 <= C ->
  VectorShiftRightOctet cfg C (VectorShiftLeftOctet cfg C v) = zero_first C v.
Proof.
  intros HC.
  rewrite VectorShiftRightOctet_bytes, VectorShiftLeftOctet_bytes by lia.
  unfold zero_first. apply build_ext. intros i Hi.
  destruct (Z.leb_spec C i); destruct (Z.ltb_spec i C); try lia;
    try reflexivity.
  rewrite get_build by lia.
  destruct (Z.ltb_spec (i - C + C) 16); [| lia]. f_equal. lia.
Qed.

Lemma shift_left_then_right_witness :
  VectorShiftRightOctet altivec_be 5 (VectorShiftLeftOctet altivec_be 5 one_to_sixteen)
  = zero_first 5 one_to_sixteen.
Proof. apply (shift_left_then_right altivec_be 5 one_to_sixteen). lia. Defined.

Lemma VectorRotateLeftOctet_defined (cfg : config) (C : Z) (v : uint8x16_p) :
  C mod 16 <> 0 ->
  VectorRotateLeftOctet cfg C v
  = Some (build (fun i => get v ((i + C) mod 16))).
Proof.
  intros HC. rewrite VectorRotateLeftOctet_bytes, land_15.
  destruct (Z.eqb_spec (C mod 16) 0) as [E | _]; [contradiction |].
  rewrite andb_false_r. f_equal.
  apply build_ext. intros i Hi. f_equal. zmod.
Qed.

Lemma VectorRotateRightOctet_defined (cfg : config) (C : Z) (v : uint8x16_p) :
  C mod 16 <> 0 ->
  VectorRotateRightOctet cfg C v
  = Some (build (fun i => get v ((i - C) mod 16))).
Proof.
  intros HC. rewrite VectorRotateRightOctet_bytes, land_15.
  destruct (Z.eqb_spec (C mod 16) 0) as [E | _]; [contradiction |].
  rewrite andb_false_r. f_equal.
  apply build_ext. intros i Hi. f_equal. zmod.
Qed.


(** X13.  For a count that is not a multiple of 16, a right rotation
    undoes the left rotation by the same count and the other way round,
    on both byte orders: both calls have a value and the second gives
    the vector back. *)
Theorem rotate_octet_inverse (cfg : config) (C : Z) (v : uint8x16_p) :
  C mod 16 <> 0 ->
  and_then (VectorRotateLeftOctet cfg C v) (VectorRotateRightOctet cfg C)
    = Some v /\
  and_then (VectorRotateRightOctet cfg C v) (VectorRotateLeftOctet cfg C)
    = Some v.
Proof.
  intros HC.
  rewrite (VectorRotateLeftOctet_defined cfg C v),
    (VectorRotateRightOctet_defined cfg C v) by assumption.
  cbn [and_then].
  rewrite VectorRotateLeftOctet_defined, VectorRotateRightOctet_defined
    by assumption.
  split; f_equal;
    (transitivity (build (get v)); [| apply build_get]);
    apply build_ext; intros i Hi;
    rewrite get_build by zmod; f_equal; zmod.
Qed.

Lemma rotate_octet_inverse_witness :
  and_then (VectorRotateLeftOctet power7_le 5 one_to_sixteen)
           (VectorRotateRightOctet power7_le 5)
    = Some one_to_sixteen /\
  and_then (VectorRotateRightOctet power7_le 5 one_to_sixteen)
           (VectorRotateLeftOctet power7_le 5)
    = Some one_to_sixteen.
Proof.
  apply (rotate_octet_inverse power7_le 5 one_to_sixteen).
  vm_compute. discriminate.
Defined.

(** X14.  Rotations add up: when none of [C], [D] and [C + D] is a
    multiple of 16, rotating by [D] and then by [C] is rotating by
    [C + D], to the left and to the right, on both byte orders. *)
Theorem rotate_octet_compose (cfg : config) (C D : Z) (v : uint8x16_p) :
  C mod 16 <> 0 -> D mod 16 <> 0 -> (C + D) mod 16 <> 0 ->
  and_then (VectorRotateLeftOctet cfg D v) (VectorRotateLeftOctet cfg C)
    = VectorRotateLeftOctet cfg (C + D) v /\
  and_then (VectorRotateRightOctet cfg D v) (VectorRotateRightOctet cfg C)
    = VectorRotateRightOctet cfg (C + D) v.
Proof.
  intros HC HD HCD.
  rewrite (VectorRotateLeftOctet_defined cfg D v),
    (VectorRotateRightOctet_defined cfg D v) by assumption.
  cbn [and_then].
  rewrite !VectorRotateLeftOctet_defined, !VectorRotateRightOctet_defined
    by assumption.
  split; f_equal; apply build_ext; intros i Hi;
    rewrite get_build by zmod; f_equal; zmod.
Qed.

Lemma rotate_octet_compose_witness :
  and_then (VectorRotateLeftOctet power7_le 7 one_to_sixteen)
           (VectorRotateLeftOctet power7_le 3)
    = VectorRotateLeftOctet power7_le (3 + 7) one_to_sixteen /\
  and_then (VectorRotateRightOctet power7_le 7 one_to_sixteen)
           (VectorRotateRightOctet power7_le 3)
    = VectorRotateRightOctet power7_le (3 + 7) one_to_sixteen.
Proof.
  apply (rotate_octet_compose power7_le 3 7 one_to_sixteen);
    vm_compute; discriminate.
Defined.

(** X15.  [VectorSwapWords] exchanges the two 8-byte halves on both
    byte orders; it is its own inverse, and it is what the octet
    rotation by 8 gives in either direction. *)
Theorem VectorSwapWords_halves (cfg : config) (v : uint8x16_p) :
  VectorSwapWords cfg v = build (fun i => get v ((i + 8) mod 16)) /\
  VectorSwapWords cfg (VectorSwapWords cfg v) = v /\
  VectorRotateLeftOctet cfg 8 v = Some (VectorSwapWords cfg v) /\
  VectorRotateRightOctet cfg 8 v = Some (VectorSwapWords cfg v).
Proof.
  destruct cfg as [p7 p8 be fam].
  destruct be, v; repeat split; reflexivity.
Qed.

(** X16.  Byte reversal turns a left octet shift into a right octet
    shift by the same count, and a right one into a left one, for every
    count and on both byte orders. *)
Theorem Reverse_shift (cfg : config) (C : Z) (v : uint8x16_p) :
  0 <= C ->
  Reverse (VectorShiftLeftOctet cfg C v)
    = VectorShiftRightOctet cfg C (Reverse v) /\
  Reverse (VectorShiftRightOctet cfg C v)
    = VectorShiftLeftOctet cfg C (Reverse v).
Proof.
  intros HC.
  rewrite (Reverse_reversed v),
    (Reverse_reversed (VectorShiftLeftOctet _ _ _)),
    (Reverse_reversed (VectorShiftRightOctet _ _ _)).
  rewrite !VectorShiftLeftOctet_bytes, !VectorShiftRightOctet_bytes by lia.
  unfold reversed.
  split; apply build_ext; intros i Hi; rewrite get_build by lia.
  - destruct (Z.ltb_spec (15 - i + C) 16); destruct (Z.leb_spec C i);
      try lia; try reflexivity.
    rewrite get_build by lia. f_equal. lia.
  - destruct (Z.leb_spec C (15 - i)); destruct (Z.ltb_spec (i + C) 16);
      try lia; try reflexivity.
    rewrite get_build by lia. f_equal. lia.
Qed.

Lemma Reverse_shift_witness :
  Reverse (VectorShiftLeftOctet power7_le 6 one_to_sixteen)
    = VectorShiftRightOctet power7_le 6 (Reverse one_to_sixteen) /\
  Reverse (VectorShiftRightOctet power7_le 6 one_to_sixteen)
    = VectorShiftLeftOctet power7_le 6 (Reverse one_to_sixteen).
Proof. apply (Reverse_shift power7_le 6 one_to_sixteen). lia. Defined.

(** X30.  For a count that is not a multiple of 16, byte reversal turns
    a left octet rotation into a right octet rotation by the same count
    and the other way round, on both byte orders. *)
Theorem Reverse_rotate (cfg : config) (C : Z) (v : uint8x16_p) :
  C mod 16 <> 0 ->
  option_map Reverse (VectorRotateLeftOctet cfg C v)
    = VectorRotateRightOctet cfg C (Reverse v) /\
  option_map Reverse (VectorRotateRightOctet cfg C v)
    = VectorRotateLeftOctet cfg C (Reverse v).
Proof.
  intros HC. rewrite (Reverse_reversed v).
  rewrite !VectorRotateLeftOctet_defined, !VectorRotateRightOctet_defined
    by assumption.
  cbn [option_map].
  repeat match goal with
         | |- context [Reverse ?x] => rewrite (Reverse_reversed x)
         end.
  unfold reversed.
  split; f_equal; apply build_ext; intros i Hi;
    rewrite !get_build by zmod; f_equal; zmod.
Qed.

Lemma Reverse_rotate_witness :
  option_map Reverse (VectorRotateLeftOctet altivec_be 6 one_to_sixteen)
    = VectorRotateRightOctet altivec_be 6 (Reverse one_to_sixteen) /\
  option_map Reverse (VectorRotateRightOctet altivec_be 6 one_to_sixteen)
    = VectorRotateLeftOctet altivec_be 6 (Reverse one_to_sixteen).
Proof.
  apply (Reverse_rotate altivec_be 6 one_to_sixteen).
  vm_compute. discriminate.
Defined.

(* ================================================================== *)
(** * Halves *)
(* ================================================================== *)

Lemma VectorGetHigh_bytes (cfg : config) (v : uint8x16_p) :
  VectorGetHigh cfg v
  = build (fun i => if 8 <=? i then get v (i - 8) else Byte.x00).
Proof.
  unfold VectorGetHigh. now rewrite VectorShiftRightOctet_bytes by lia.
Qed.

Lemma VectorGetLow_bytes (cfg : config) (v : uint8x16_p) :
  VectorGetLow cfg v
  = build (fun i => if 8 <=? i then get v i else Byte.x00).
Proof.
  unfold VectorGetLow.
  rewrite VectorShiftRightOctet_bytes, VectorShiftLeftOctet_bytes by lia.
  apply build_ext. intros i Hi.
  destruct (Z.leb_spec 8 i); [| reflexivity].
  rewrite get_build by lia.
  destruct (Z.ltb_spec (i - 8 + 8) 16); [| lia]. f_equal. lia.
Qed.

Lemma get_bytewise (f : Z -> Z -> Z) (a b : uint8x16_p) (i : Z) :
  0 <= i < 16 ->
  get (bytewise f a b) i
  = byte.of_Z (f (byte.unsigned (get a i)) (byte.unsigned (get b i))).
Proof. intros Hi. unfold bytewise. now rewrite get_build. Qed.

Lemma wrap_land (z : Z) : byte.wrap z = Z.land z (Z.ones 8).
Proof. unfold byte.wrap. now rewrite Z.land_ones by lia. Qed.

Lemma byte_lor_x00_r (b : byte) :
  byte.of_Z (Z.lor (byte.unsigned b) (byte.unsigned Byte.x00)) = b.
Proof.
  change (byte.unsigned Byte.x00) with 0.
  rewrite Z.lor_0_r. apply byte.of_Z_unsigned.
Qed.

Lemma byte_lor_x00_l (b : byte) :
  byte.of_Z (Z.lor (byte.unsigned Byte.x00) (byte.unsigned b)) = b.
Proof.
  change (byte.unsigned Byte.x00) with 0.
  rewrite Z.lor_0_l. apply byte.of_Z_unsigned.
Qed.

(** X17.  [VectorGetHigh] and [VectorGetLow] on both byte orders: each
    returns one 8-byte half of its argument in bytes 8..15 and zeros in
    bytes 0..7 (the first half for [VectorGetHigh], the second for
    [VectorGetLow]); as 64-bit lanes, lane 0 of the result is 0 and lane
    1 is lane 0, respectively lane 1, of the argument; and the two
    halves put back together give the argument. *)
Theorem VectorGetHigh_VectorGetLow (cfg : config) (v : uint8x16_p) :
  VectorGetHigh cfg v
    = build (fun i => if 8 <=? i then get v (i - 8) else Byte.x00) /\
  VectorGetLow cfg v
    = build (fun i => if 8 <=? i then get v i else Byte.x00) /\
  lanes64 cfg (VectorGetHigh cfg v) = [0; nth 0 (lanes64 cfg v) 0] /\
  lanes64 cfg (VectorGetLow cfg v) = [0; nth 1 (lanes64 cfg v) 0] /\
  VectorOr (VectorShiftLeftOctet cfg 8 (VectorGetHigh cfg v))
           (VectorGetLow cfg v) = v.
Proof.
  split; [apply VectorGetHigh_bytes |].
  split; [apply VectorGetLow_bytes |].
  rewrite VectorGetHigh_bytes, VectorGetLow_bytes.
  split; [| split].
  - destruct cfg as [p7 p8 be fam]. destruct be, v; reflexivity.
  - destruct cfg as [p7 p8 be fam]. destruct be, v; reflexivity.
  - rewrite VectorShiftLeftOctet_bytes by lia.
    apply vec_ext. intros i Hi.
    unfold VectorOr, vec_or. rewrite get_bytewise by lia.
    rewrite (get_build _ i) by lia. rewrite (get_build _ i) by lia.
    destruct (Z.ltb_spec (i + 8) 16); destruct (Z.leb_spec 8 i); try lia.
    + rewrite get_build by lia.
      destruct (Z.leb_spec 8 (i + 8)); [| lia].
      replace (i + 8 - 8) with i by lia. apply byte_lor_x00_r.
    + apply byte_lor_x00_l.
Qed.

(* ================================================================== *)
(** * Bitwise operations *)
(* ================================================================== *)

Ltac bytewise_ext :=
  apply vec_ext; intros ? ?;
  unfold VectorAnd, VectorOr, VectorXor, vec_and, vec_or, vec_xor;
  rewrite ?get_bytewise by assumption;
  rewrite ?get_bytewise by assumption;
  apply byte.unsigned_inj;
  rewrite ?byte.unsigned_of_Z.

(** X18.  [VectorXor] undoes itself: xoring twice with the same vector
    gives the first operand back, a vector xored with itself is zero,
    zero is neutral, and the operands commute. *)
Theorem VectorXor_cancel (a b : uint8x16_p) :
  VectorXor (VectorXor a b) b = a /\
  VectorXor a a = zero_vec /\
  VectorXor a zero_vec = a /\
  VectorXor a b = VectorXor b a.
Proof.
  repeat split; bytewise_ext.
  - rewrite <- (byte.wrap_unsigned (get a _)) at 2.
    rewrite !wrap_land. Z.bitblast.
  - unfold zero_vec. rewrite get_build by assumption.
    rewrite Z.lxor_nilpotent. reflexivity.
  - unfold zero_vec. rewrite get_build by assumption.
    change (byte.unsigned Byte.x00) with 0.
    rewrite Z.lxor_0_r. apply byte.wrap_unsigned.
  - now rewrite Z.lxor_comm.
Qed.

(** X19.  [VectorAnd] and [VectorOr] absorb each other, and they treat
    the zero vector as expected: anding with it gives zero, oring with
    it changes nothing. *)
Theorem VectorAnd_VectorOr_absorb (a b : uint8x16_p) :
  VectorAnd a (VectorOr a b) = a /\
  VectorOr a (VectorAnd a b) = a /\
  VectorAnd a zero_vec = zero_vec /\
  VectorOr a zero_vec = a.
Proof.
  repeat split; bytewise_ext.
  - rewrite <- (byte.wrap_unsigned (get a _)) at 3.
    rewrite !wrap_land. Z.bitblast.
  - rewrite <- (byte.wrap_unsigned (get a _)) at 3.
    rewrite !wrap_land. Z.bitblast.
  - unfold zero_vec. rewrite get_build by assumption.
    change (byte.unsigned Byte.x00) with 0.
    rewrite Z.land_0_r. reflexivity.
  - unfold zero_vec. rewrite get_build by assumption.
    change (byte.unsigned Byte.x00) with 0.
    rewrite Z.lor_0_r. apply byte.wrap_unsigned.
Qed.

(* ================================================================== *)
(** * Permutation *)
(* ================================================================== *)

Lemma VectorPermute_bytes (vec mask : uint8x16_p) :
  VectorPermute vec mask
  = build (fun i => get vec (byte.unsigned (get mask i) mod 16)).
Proof.
  unfold VectorPermute, vec_perm. apply build_ext. intros i Hi.
  rewrite land_31. unfold sel.
  pose proof (byte.unsigned_range (get mask i)) as Hr.
  destruct (Z.ltb_spec (byte.unsigned (get mask i) mod 32) 16);
    f_equal; zmod.
Qed.

(** X20.  The one-vector [VectorPermute] uses only the low four bits of
    each mask byte: byte [i] of the result is byte [mask[i] mod 16] of
    the vector.  The mask 0..15 changes nothing, and permuting twice is
    permuting once by the permuted mask. *)
Theorem VectorPermute_compose (vec mask1 mask2 : uint8x16_p) :
  VectorPermute vec mask1
    = build (fun i => get vec (byte.unsigned (get mask1 i) mod 16)) /\
  VectorPermute vec (lit8 [0;1;2;3; 4;5;6;7; 8;9;10;11; 12;13;14;15]) = vec /\
  VectorPermute (VectorPermute vec mask1) mask2
    = VectorPermute vec (VectorPermute mask1 mask2).
Proof.
  split; [apply VectorPermute_bytes |]. split.
  - destruct vec. vm_compute. reflexivity.
  - rewrite !VectorPermute_bytes. apply build_ext. intros i Hi.
    pose proof (byte.unsigned_range (get mask2 i)) as Hr.
    rewrite !get_build by zmod. reflexivity.
Qed.

(* ================================================================== *)
(** * Lanes of any width *)
(* ================================================================== *)

Lemma lane_bytes_lane_val (cfg : config) (n : nat) (bs : list byte) :
  length bs = n -> lane_bytes cfg n (lane_val cfg bs) = bs.
Proof.
  intros Hlen. unfold lane_bytes, lane_val. destruct (big_endian cfg).
  - rewrite split_le_combine' by now rewrite length_rev.
    apply rev_involutive.
  - now apply split_le_combine'.
Qed.

Lemma lanes_length (cfg : config) (T : vector_type) (v : uint8x16_p) :
  length (lanes cfg T v) = (16 / lane_width T)%nat.
Proof. unfold lanes. now rewrite length_map, length_seq. Qed.

(** A vector is made of its lanes. *)
Lemma of_lanes_lanes (cfg : config) (T : vector_type) (v : uint8x16_p) :
  of_lanes cfg (lane_width T) (lanes cfg T v) = v.
Proof.
  destruct v, T;
    match goal with
    | |- of_lanes _ _ (lanes _ ?T ?v) = _ =>
        let l := eval cbv [lanes lane_width seq map lane_slice to_list firstn
                           skipn Nat.div Nat.divmod fst Nat.mul Nat.add
                           e0 e1 e2 e3 e4 e5 e6 e7 e8 e9 e10 e11 e12 e13
                           e14 e15] in (lanes cfg T v) in
        change (lanes cfg T v) with l
    end;
    unfold of_lanes; cbn [map concat lane_width];
    rewrite !lane_bytes_lane_val by reflexivity; reflexivity.
Qed.

(** The lanes of a vector made of lanes are those lanes, reduced modulo
    the lane size. *)
Lemma lanes_of_lanes (cfg : config) (T : vector_type) (ls : list Z) :
  length ls = (16 / lane_width T)%nat ->
  lanes cfg T (of_lanes cfg (lane_width T) ls)
  = map (fun z => z mod lane_modulus T) ls.
Proof.
  intros Hlen.
  transitivity
    (map (fun z => lane_val cfg (lane_bytes cfg (lane_width T) z)) ls).
  - destruct T; cbn [lane_width] in *.
    + do 16 (destruct ls as [| ? ls]; [discriminate Hlen |]).
      destruct ls; [| discriminate Hlen].
      unfold of_lanes. cbn [map concat].
      repeat match goal with
             | |- context [lane_bytes cfg 1 ?z] =>
                 lane_bytes_explicit cfg 1%nat z
             end.
      reflexivity.
    + do 8 (destruct ls as [| ? ls]; [discriminate Hlen |]).
      destruct ls; [| discriminate Hlen].
      unfold of_lanes. cbn [map concat].
      repeat match goal with
             | |- context [lane_bytes cfg 2 ?z] =>
                 lane_bytes_explicit cfg 2%nat z
             end.
      reflexivity.
    + do 4 (destruct ls as [| ? ls]; [discriminate Hlen |]).
      destruct ls; [| discriminate Hlen].
      unfold of_lanes. cbn [map concat].
      repeat match goal with
             | |- context [lane_bytes cfg 4 ?z] =>
                 lane_bytes_explicit cfg 4%nat z
             end.
      reflexivity.
    + do 2 (destruct ls as [| ? ls]; [discriminate Hlen |]).
      destruct ls; [| discriminate Hlen].
      unfold of_lanes. cbn [map concat].
      repeat match goal with
             | |- context [lane_bytes cfg 8 ?z] =>
                 lane_bytes_explicit cfg 8%nat z
             end.
      reflexivity.
  - apply map_ext. intros z. rewrite lane_val_lane_bytes.
    unfold lane_modulus. f_equal. f_equal. lia.
Qed.

(** Every lane value is below the lane size. *)
Lemma lanes_mod (cfg : config) (T : vector_type) (v : uint8x16_p) :
  map (fun z => z mod lane_modulus T) (lanes cfg T v) = lanes cfg T v.
Proof.
  rewrite <- (lanes_of_lanes cfg T (lanes cfg T v)) by apply lanes_length.
  now rewrite of_lanes_lanes.
Qed.

Lemma lane_modulus_pos (T : vector_type) : 0 < lane_modulus T.
Proof. unfold lane_modulus. apply Z.pow_pos_nonneg; lia. Qed.

Lemma zip_with_length (f : Z -> Z -> Z) (xs ys : list Z) :
  length xs = length ys -> length (zip_with f xs ys) = length xs.
Proof.
  revert ys. induction xs as [| x xs IH]; intros [| y ys] H;
    cbn [zip_with length] in *; try discriminate; auto.
Qed.

Lemma zip_with_comm (f : Z -> Z -> Z) (xs ys : list Z) :
  (forall x y, f x y = f y x) -> zip_with f xs ys = zip_with f ys xs.
Proof.
  intros Hf. revert ys. induction xs as [| x xs IH]; intros [| y ys];
    cbn [zip_with]; try reflexivity.
  now rewrite Hf, IH.
Qed.

(** Undoing a lane-wise operation, lane by lane. *)
Lemma zip_with_undo (M : Z) (f g : Z -> Z -> Z) (xs ys : list Z) :
  (forall x y, g ((f x y) mod M) y = x mod M) ->
  length xs = length ys ->
  zip_with g (map (fun z => z mod M) (zip_with f xs ys)) ys
  = map (fun z => z mod M) xs.
Proof.
  intros Hfg. revert ys. induction xs as [| x xs IH]; intros [| y ys] H;
    cbn [zip_with map length] in *; try discriminate; try reflexivity.
  rewrite Hfg, IH by lia. reflexivity.
Qed.

(* ================================================================== *)
(** * Lane-wise addition and subtraction *)
(* ================================================================== *)

Lemma map_mod_zip_with (M : Z) (f : Z -> Z -> Z) (xs ys : list Z) :
  map (fun z => z mod M) (zip_with (fun x y => f x y mod M) xs ys)
  = zip_with (fun x y => f x y mod M) xs ys.
Proof.
  revert ys. induction xs as [| x xs IH]; intros [| y ys];
    cbn [zip_with map]; try reflexivity.
  now rewrite Zmod_mod, IH.
Qed.

Lemma lanes_zip_length (cfg : config) (T : vector_type) (f : Z -> Z -> Z)
    (a b : uint8x16_p) :
  length (zip_with f (lanes cfg T a) (lanes cfg T b))
  = (16 / lane_width T)%nat.
Proof.
  rewrite zip_with_length by now rewrite !lanes_length.
  apply lanes_length.
Qed.

(** X21.  [VectorAdd] and [VectorSub] work lane by lane at the lane
    width of the first operand's type, wrapping modulo [2^8], [2^16],
    [2^32] or [2^64], on both byte orders; [VectorAdd] is commutative. *)
Theorem VectorAdd_VectorSub_lanes
    (cfg : config) (T : vector_type) (a b : uint8x16_p) :
  lanes cfg T (VectorAdd cfg T a b)
    = zip_with (fun x y => (x + y) mod lane_modulus T)
               (lanes cfg T a) (lanes cfg T b) /\
  lanes cfg T (VectorSub cfg T a b)
    = zip_with (fun x y => (x - y) mod lane_modulus T)
               (lanes cfg T a) (lanes cfg T b) /\
  VectorAdd cfg T a b = VectorAdd cfg T b a.
Proof.
  unfold VectorAdd, VectorSub, vec_add, vec_sub. repeat split.
  - rewrite lanes_of_lanes by apply lanes_zip_length.
    apply (map_mod_zip_with _ Z.add).
  - rewrite lanes_of_lanes by apply lanes_zip_length.
    apply (map_mod_zip_with _ Z.sub).
  - f_equal. apply zip_with_comm. intros x y. f_equal. lia.
Qed.

(** X22.  Subtracting what was added gives the vector back, and adding
    what was subtracted too, at every lane width and on both byte
    orders: the wrap-around of the one cancels that of the other. *)
Theorem VectorSub_VectorAdd
    (cfg : config) (T : vector_type) (a b : uint8x16_p) :
  VectorSub cfg T (VectorAdd cfg T a b) b = a /\
  VectorAdd cfg T (VectorSub cfg T a b) b = a.
Proof.
  pose proof (lane_modulus_pos T) as HM.
  unfold VectorAdd, VectorSub, vec_add, vec_sub. split.
  - rewrite lanes_of_lanes by apply lanes_zip_length.
    rewrite (zip_with_undo (lane_modulus T)
               (fun x y => (x + y) mod lane_modulus T)
               (fun x y => (x - y) mod lane_modulus T)).
    + rewrite lanes_mod. apply of_lanes_lanes.
    + intros x y. cbv beta.
      rewrite Zmod_mod, Zminus_mod_idemp_l. f_equal. lia.
    + now rewrite !lanes_length.
  - rewrite lanes_of_lanes by apply lanes_zip_length.
    rewrite (zip_with_undo (lane_modulus T)
               (fun x y => (x - y) mod lane_modulus T)
               (fun x y => (x + y) mod lane_modulus T)).
    + rewrite lanes_mod. apply of_lanes_lanes.
    + intros x y. cbv beta.
      rewrite Zmod_mod, Zplus_mod_idemp_l. f_equal. lia.
    + now rewrite !lanes_length.
Qed.

(* ================================================================== *)
(** * Bit rotations of the 32-bit lanes *)
(* ================================================================== *)

Lemma rotl32_arith (x n : Z) :
  0 <= x < 2 ^ 32 -> 0 <= n < 32 ->
  rotl32 x n = (x mod 2 ^ (32 - n)) * 2 ^ n + x / 2 ^ (32 - n).
Proof.
  intros Hx Hn. unfold rotl32.
  rewrite Z.shiftl_mul_pow2, Z.shiftr_div_pow2 by lia.
  assert (Hpow : 2 ^ 32 = 2 ^ (32 - n) * 2 ^ n).
  { rewrite <- Z.pow_add_r by lia. f_equal. lia. }
  assert (HP : 0 < 2 ^ n) by (apply Z.pow_pos_nonneg; lia).
  assert (HQ : 0 < 2 ^ (32 - n)) by (apply Z.pow_pos_nonneg; lia).
  rewrite Hpow at 1.
  rewrite Z.mul_mod_distr_r by lia.
  rewrite Z.lor_comm, <- Z.shiftl_mul_pow2 by lia.
  rewrite lor_shiftl_add.
  - rewrite Z.shiftl_mul_pow2 by lia. lia.
  - lia.
  - split.
    + apply Z.div_pos; lia.
    + apply Z.div_lt_upper_bound; lia.
Qed.

Lemma rotl32_inverse (x n k : Z) :
  0 <= x < 2 ^ 32 -> 0 <= n < 32 -> k = (32 - n) mod 32 ->
  rotl32 (rotl32 x n) k = x /\ 0 <= rotl32 x n < 2 ^ 32.
Proof.
  intros Hx Hn Hk.
  assert (HP : 0 < 2 ^ n) by (apply Z.pow_pos_nonneg; lia).
  assert (HQ : 0 < 2 ^ (32 - n)) by (apply Z.pow_pos_nonneg; lia).
  assert (Hpow : 2 ^ 32 = 2 ^ (32 - n) * 2 ^ n).
  { rewrite <- Z.pow_add_r by lia. f_equal. lia. }
  rewrite (rotl32_arith x n) by lia.
  pose proof (Z.div_mod x (2 ^ (32 - n)) ltac:(lia)) as Hdm.
  pose proof (Z.mod_pos_bound x (2 ^ (32 - n)) HQ) as Hlo.
  assert (Hhi : 0 <= x / 2 ^ (32 - n) < 2 ^ n).
  { split; [apply Z.div_pos; lia | apply Z.div_lt_upper_bound; lia]. }
  set (lo := x mod 2 ^ (32 - n)) in *.
  set (hi := x / 2 ^ (32 - n)) in *.
  assert (Hy : 0 <= lo * 2 ^ n + hi < 2 ^ 32) by nia.
  split; [| exact Hy].
  destruct (Z.eq_dec n 0) as [-> | Hn0].
  - subst k. change ((32 - 0) mod 32) with 0.
    rewrite rotl32_arith by (try exact Hy; lia).
    change (2 ^ (32 - 0)) with (2 ^ 32) in *. change (2 ^ 0) with 1 in *.
    rewrite Z.mod_small by lia. rewrite Z.div_small by lia. lia.
  - assert (Hk' : k = 32 - n) by (subst k; apply Z.mod_small; lia).
    rewrite Hk'. rewrite rotl32_arith by (try exact Hy; lia).
    replace (32 - (32 - n)) with n by lia.
    rewrite (Z.add_comm (lo * 2 ^ n) hi).
    rewrite Z.mod_add by lia. rewrite Z.div_add by lia.
    rewrite Z.mod_small by lia. rewrite (Z.div_small hi) by lia. lia.
Qed.

Lemma rotl32_range (x n : Z) :
  0 <= x < 2 ^ 32 -> 0 <= n < 32 -> 0 <= rotl32 x n < 2 ^ 32.
Proof.
  intros Hx Hn. exact (proj2 (rotl32_inverse x n _ Hx Hn eq_refl)).
Qed.

Lemma lanes32_range (cfg : config) (v : uint8x16_p) (x : Z) :
  In x (lanes32 cfg v) -> 0 <= x < 2 ^ 32.
Proof.
  destruct v. rewrite lanes32_V16. cbn [In].
  intros [<- | [<- | [<- | [<- | []]]]];
    match goal with
    | |- _ <= lane_val _ ?bs < _ => exact (lane_val_bound cfg bs)
    end.
Qed.

Lemma lanes32_inj (cfg : config) (v w : uint8x16_p) :
  lanes32 cfg v = lanes32 cfg w -> v = w.
Proof.
  intros H.
  rewrite <- (of_lanes_lanes cfg T_uint32x4 v),
    <- (of_lanes_lanes cfg T_uint32x4 w).
  change (lanes cfg T_uint32x4 v) with (lanes32 cfg v).
  change (lanes cfg T_uint32x4 w) with (lanes32 cfg w).
  now rewrite H.
Qed.

(** Rotating by the same count in every lane. *)
Lemma vec_rl_splat (cfg : config) (a : uint8x16_p) (s : Z) :
  lanes32 cfg (vec_rl cfg a (lit32 cfg [s; s; s; s]))
  = map (fun x => rotl32 x (s mod 32)) (lanes32 cfg a).
Proof.
  pose proof (lanes32_range cfg a) as Hr.
  unfold vec_rl, lit32. rewrite (lanes32_of_lanes cfg s s s s).
  assert (Hs : Z.land (s mod 2 ^ 32) 31 = s mod 32).
  { rewrite land_31. change (2 ^ 32) with 4294967296. zmod. }
  assert (Hn : 0 <= s mod 32 < 32) by zmod.
  destruct a. rewrite lanes32_V16 in *. cbn [zip_with map].
  rewrite !Hs.
  rewrite lanes32_of_lanes.
  repeat match goal with
         | |- context [rotl32 ?x ?n mod 2 ^ 32] =>
             rewrite (Z.mod_small (rotl32 x n) (2 ^ 32))
               by (apply rotl32_range; [apply Hr; cbn [In]; tauto | exact Hn])
         end.
  reflexivity.
Qed.

(** X23.  [VectorRotateRight<C>] undoes [VectorRotateLeft<C>] and the
    other way round, for every count [C], also 0 and counts above 32:
    the right rotation is the left rotation by [32 - C], taken as an
    unsigned number, and only the low five bits count. *)
Theorem VectorRotate_inverse (cfg : config) (C : Z) (v : uint8x16_p) :
  VectorRotateRight cfg C (VectorRotateLeft cfg C v) = v /\
  VectorRotateLeft cfg C (VectorRotateRight cfg C v) = v.
Proof.
  assert (Hn : 0 <= C mod 32 < 32) by zmod.
  assert (Hk : ((32 - C) mod 2 ^ 32) mod 32 = (32 - C mod 32) mod 32).
  { change (2 ^ 32) with 4294967296. zmod. }
  assert (Hk' : 0 <= (32 - C mod 32) mod 32 < 32) by zmod.
  unfold VectorRotateRight, VectorRotateLeft. cbv zeta.
  split; apply (lanes32_inj cfg); rewrite !vec_rl_splat, map_map, Hk;
    rewrite <- (map_id (lanes32 cfg v)) at 2;
    apply map_ext_in; intros x Hx; apply lanes32_range in Hx.
  - now apply (rotl32_inverse x (C mod 32)).
  - apply (rotl32_inverse x ((32 - C mod 32) mod 32)); try assumption.
    zmod.
Qed.

(** X24.  A bit rotation by a multiple of 32 changes nothing, and
    [VectorRotateRight<C>] is [VectorRotateLeft] by [32 - C mod 32]:
    there is no right rotation of its own. *)
Theorem VectorRotate_counts (cfg : config) (C : Z) (v : uint8x16_p) :
  VectorRotateLeft cfg (32 * C) v = v /\
  VectorRotateRight cfg (32 * C) v = v /\
  VectorRotateRight cfg C v = VectorRotateLeft cfg (32 - C mod 32) v.
Proof.
  unfold VectorRotateRight, VectorRotateLeft. cbv zeta.
  repeat split; apply (lanes32_inj cfg); rewrite !vec_rl_splat.
  - replace ((32 * C) mod 32) with 0 by zmod.
    rewrite <- (map_id (lanes32 cfg v)) at 2.
    apply map_ext_in. intros x Hx. apply lanes32_range in Hx.
    rewrite rotl32_arith by lia.
    change (2 ^ (32 - 0)) with (2 ^ 32). change (2 ^ 0) with 1.
    rewrite Z.mod_small, Z.div_small by lia. lia.
  - replace (((32 - 32 * C) mod 2 ^ 32) mod 32) with 0
      by (change (2 ^ 32) with 4294967296; zmod).
    rewrite <- (map_id (lanes32 cfg v)) at 2.
    apply map_ext_in. intros x Hx. apply lanes32_range in Hx.
    rewrite rotl32_arith by lia.
    change (2 ^ (32 - 0)) with (2 ^ 32). change (2 ^ 0) with 1.
    rewrite Z.mod_small, Z.div_small by lia. lia.
  - apply map_ext. intros x. f_equal.
    change (2 ^ 32) with 4294967296. zmod.
Qed.

(* ================================================================== *)
(** * 64-bit addition, comparison, byte order: further properties *)
(* ================================================================== *)

(** X25.  With the native addition of POWER8, and below POWER8 on a
    big-endian host, [VectorAdd64] adds the two 64-bit lanes modulo
    [2^64] for all operands, and is [VectorAdd] at [uint64x2_p]. *)
Theorem VectorAdd64_modular (cfg : config) (v1 v2 : uint8x16_p) :
  arch_pwr8 cfg = true \/ big_endian cfg = true ->
  lanes64 cfg (VectorAdd64 cfg v1 v2)
    = add64_lanes (lanes64 cfg v1) (lanes64 cfg v2) /\
  VectorAdd64 cfg v1 v2 = VectorAdd cfg T_uint64x2 v1 v2.
Proof.
  intros H. split.
  - now apply VectorAdd64_adds_64_bit_lanes.
  - change (VectorAdd cfg T_uint64x2 v1 v2) with (vec_add_u64 cfg v1 v2).
    destruct (arch_pwr8 cfg) eqn:Hp8.
    + unfold VectorAdd64. now rewrite Hp8.
    + destruct H as [H | H]; [discriminate |].
      now apply VectorAdd64_fallback_big_endian.
Qed.

Lemma VectorAdd64_modular_witness :
  lanes64 altivec_be (VectorAdd64 altivec_be one_to_sixteen one_to_sixteen)
    = add64_lanes (lanes64 altivec_be one_to_sixteen)
                  (lanes64 altivec_be one_to_sixteen) /\
  VectorAdd64 altivec_be one_to_sixteen one_to_sixteen
    = VectorAdd altivec_be T_uint64x2 one_to_sixteen one_to_sixteen.
Proof.
  apply (VectorAdd64_modular altivec_be one_to_sixteen one_to_sixteen).
  right. reflexivity.
Defined.

(** X26.  [VectorEqual] holds exactly when the two vectors have the
    same 128 bits and [VectorNotEqual] exactly when they differ, on
    both byte orders: comparing the four 32-bit lanes misses no byte. *)
Theorem VectorEqual_all_bits (cfg : config) (v1 v2 : uint8x16_p) :
  (VectorEqual cfg v1 v2 = true <-> v1 = v2) /\
  (VectorNotEqual cfg v1 v2 = true <-> v1 <> v2).
Proof.
  split; [apply VectorEqual_iff |].
  pose proof (VectorEqual_iff cfg v1 v2) as Heq.
  unfold VectorNotEqual, VectorEqual in *.
  destruct (vec_all_eq_0_or_1 cfg v1 v2) as [E | E]; rewrite E in *;
    cbn in *; split; intros H.
  - intros Hv. apply Heq in Hv. discriminate.
  - reflexivity.
  - discriminate.
  - exfalso. apply H, Heq. reflexivity.
Qed.

(** X27.  [Reverse] swaps the byte order of the lanes: the 32-bit lanes
    of the reversed vector, read on one byte order, are the lanes of the
    vector read on the other byte order, last lane first. *)
Theorem Reverse_lanes (cfg : config) (v : uint8x16_p) :
  lanes32 cfg (Reverse v)
    = rev (lanes32 (with_big_endian (negb (big_endian cfg)) cfg) v) /\
  lanes64 cfg (Reverse v)
    = rev (lanes64 (with_big_endian (negb (big_endian cfg)) cfg) v).
Proof.
  rewrite Reverse_reversed. destruct cfg as [p7 p8 be fam].
  destruct be, v; split; reflexivity.
Qed.

(** X28.  What [VectorStoreBE] leaves in memory, read as big-endian
    32-bit words, are the lane values of the vector on every host; on a
    little-endian host they lie in reverse lane order. *)
Theorem VectorStoreBE_lanes
    (cfg : config) (v : uint8x16_p) (dest : Z) (m : memory) :
  lanes32 (with_big_endian true cfg)
          (bytes_at (VectorStoreBE cfg v dest m) dest)
  = if big_endian cfg then lanes32 cfg v else rev (lanes32 cfg v).
Proof.
  assert (Hb : bytes_at (VectorStoreBE cfg v dest m) dest
               = if big_endian cfg then v else reversed v).
  { unfold bytes_at.
    transitivity (build (get (if big_endian cfg then v else reversed v)));
      [| apply build_get].
    apply build_ext. intros i Hi.
    rewrite VectorStoreBE_bytes. unfold written_at.
    destruct (range_spec dest (dest + 16) (dest + i)); [| lia].
    f_equal. lia. }
  rewrite Hb. destruct cfg as [p7 p8 be fam].
  destruct be, v; reflexivity.
Qed.

(** X29.  The big-endian loads and stores with an offset are right in
    every configuration when the array is 16-byte aligned and the offset
    is a multiple of 16: the load returns the 16 bytes at
    [src + off], reversed as a whole on a little-endian host, and the
    store writes the vector's bytes there, reversed likewise, and
    nothing else. *)
Theorem offset_access_big_endian_aligned
    (cfg : config) (m : memory) (v : uint8x16_p) (off p x : Z) :
  p mod 16 = 0 -> off mod 16 = 0 ->
  VectorLoadBE_off cfg m off p
    = (if big_endian cfg then bytes_at m (p + off)
       else reversed (bytes_at m (p + off))) /\
  VectorStoreBE_off cfg v off p m x
    = written_at (if big_endian cfg then v else reversed v) (p + off) m x.
Proof.
  intros Hp Hoff.
  assert (Hload : VectorLoad_off cfg m off p = bytes_at m (p + off)).
  { destruct (arch_pwr7 cfg) eqn:H7.
    - now apply VectorLoad_off_pwr7.
    - unfold VectorLoad_off. rewrite H7.
      now apply VectorLoad_ALTIVEC_off_aligned. }
  assert (Hstore : forall d,
             VectorStore_off cfg d off p m x = written_at d (p + off) m x).
  { intros d. destruct (arch_pwr7 cfg) eqn:H7.
    - now apply VectorStore_off_pwr7.
    - unfold VectorStore_off. rewrite H7.
      rewrite VectorStore_ALTIVEC_off_aligned by assumption.
      now rewrite Hoff, Z.sub_0_r. }
  split.
  - unfold VectorLoadBE_off, vec_xl_be, vec_vsx_ld.
    rewrite reg_image_reversed.
    destruct (arch_pwr7 cfg), (xlc_or_clang cfg), (big_endian cfg);
      rewrite ?Reverse_reversed, ?Hload; reflexivity.
  - unfold VectorStoreBE_off, vec_xst_be, vec_vsx_st.
    rewrite reg_image_reversed.
    destruct (arch_pwr7 cfg) eqn:H7, (xlc_or_clang cfg), (big_endian cfg);
      rewrite ?Hstore, ?Reverse_reversed; reflexivity.
Qed.

Lemma offset_access_big_endian_aligned_witness :
  VectorLoadBE_off power7_le ramp 32 16
    = (if big_endian power7_le then bytes_at ramp (16 + 32)
       else reversed (bytes_at ramp (16 + 32))) /\
  VectorStoreBE_off power7_le one_to_sixteen 32 16 filled 50
    = written_at (if big_endian power7_le then one_to_sixteen
                  else reversed one_to_sixteen) (16 + 32) filled 50.
Proof.
  apply (offset_access_big_endian_aligned
           power7_le ramp one_to_sixteen 32 16 50); reflexivity.
Defined.
